(** * Smash: a small command interpreter

    A shallow embedding of [main.cpp] (tokenizer [parse], the dispatcher of
    [main], and the command handlers [copy_cmd], [run_cmd], [list_cmd],
    [help_cmd], [quit_cmd] with their helpers), followed by the theorems
    that relate the written specification to the code. *)

From Stdlib Require Import ZArith Ascii String List Lia DecimalString.
From stdpp Require Import base tactics option list strings gmap.

Local Open Scope string_scope.
Local Open Scope list_scope.
Local Open Scope nat_scope.

(** ** Constants of the program *)

Definition MAX_PARAMS : nat := 4.
Definition MAX_PARAM_LENGTH : nat := 100.
Definition PROMPT : string := "user@smash $ ".
Definition PROGRAM_VERSION : string := "1.0".

(** ** Characters *)

Definition NUL : ascii := "000"%char.
Definition TAB : ascii := "009"%char.
Definition nl : ascii := "010"%char.
Definition SPACE : ascii := " "%char.
Definition QUOTE : ascii := "034"%char.
(** [cin.get()] returns [EOF] (-1) at end of input; assigned to a [char]
    this is the byte 255. *)
Definition EOF_char : ascii := "255"%char.

Definition endl : string := String nl EmptyString.
Definition tab : string := String TAB EmptyString.
Definition quote : string := String QUOTE EmptyString.

(** [tolower] in the C locale (the program never calls [setlocale]). *)
Definition tolower (c : ascii) : ascii :=
  let n := nat_of_ascii c in
  if (65 <=? n) && (n <=? 90) then ascii_of_nat (n + 32) else c.

(** [operator<<] on an [int]. *)
Definition show_nat (n : nat) : string := NilZero.string_of_uint (Nat.to_uint n).

(** ** Results of running code

    [Fault] is a store outside an allocated array (undefined behaviour in
    C++); [Timeout] is the model's loop budget running out. *)

Inductive result (A : Type) : Type :=
| Ok (x : A)
| Fault
| Timeout.
Arguments Ok {A} x.
Arguments Fault {A}.
Arguments Timeout {A}.

Definition rbind {A B} (m : result A) (f : A -> result B) : result B :=
  match m with
  | Ok x => f x
  | Fault => Fault
  | Timeout => Timeout
  end.

Notation "'do' x <- m ; k" := (rbind m (fun x => k))
  (at level 10, x name, m at level 100, k at level 200).

(** ** The world the interpreter runs in *)

(** A path names a regular file with its permission to be opened for
    reading and for writing, or a directory with its entries. Each path
    names a file of its own: two names of one file (a link, or [a.txt]
    and [./a.txt]) are outside this model. *)
Inductive node : Type :=
| File (data : list ascii) (readable writable : bool)
| Dir (entries : list string).

(** System calls the program makes, in order. *)
Inductive event : Type :=
| EvOpenIn (path : string)
| EvOpenOut (path : string)
| EvStat (path : string)
| EvOpenDir (path : string)
| EvFork
| EvWait
| EvExecl (path : string).

Record World : Type := mkWorld {
  w_cin : list ascii;          (* unread standard input *)
  w_cout : string;             (* everything printed so far *)
  w_fs : gmap string node;     (* the file system *)
  w_trace : list event;        (* system calls made so far *)
  w_fork : Z;                  (* what the next fork() returns here *)
  w_exec_ok : bool;            (* whether execl() replaces the image *)
  (* for a name that does not exist: the directory that receives it and
     the entry it gets there, when a file of that name can be created *)
  w_create_in : string -> option (string * string);
  (* what the program run in a child does, before [wait] returns, to the
     input and the file system it shares with the interpreter, and what
     it prints *)
  w_child : string -> list ascii -> gmap string node
            -> list ascii * string * gmap string node
}.

Definition set_cin (s : list ascii) (w : World) : World :=
  mkWorld s (w_cout w) (w_fs w) (w_trace w) (w_fork w) (w_exec_ok w)
          (w_create_in w) (w_child w).
Definition cout (s : string) (w : World) : World :=
  mkWorld (w_cin w) (w_cout w +:+ s) (w_fs w) (w_trace w) (w_fork w) (w_exec_ok w)
          (w_create_in w) (w_child w).
Definition set_fs (fs : gmap string node) (w : World) : World :=
  mkWorld (w_cin w) (w_cout w) fs (w_trace w) (w_fork w) (w_exec_ok w)
          (w_create_in w) (w_child w).
Definition log (e : event) (w : World) : World :=
  mkWorld (w_cin w) (w_cout w) (w_fs w) (w_trace w ++ [e]) (w_fork w) (w_exec_ok w)
          (w_create_in w) (w_child w).

(** [cin.get()]. *)
Definition cin_get (w : World) : ascii * World :=
  match w_cin w with
  | [] => (EOF_char, w)
  | c :: s => (c, set_cin s w)
  end.

(** [cin.ignore(numeric_limits<streamsize>::max(), '\n')]: drop input up to
    and including the first newline. *)
Fixpoint ignore_line (s : list ascii) : list ascii :=
  match s with
  | [] => []
  | c :: s' => if decide (c = nl) then s' else ignore_line s'
  end.

Definition clearInput (w : World) : World := set_cin (ignore_line (w_cin w)) w.

(** ** The parameter array

    [char** a]: [MAX_PARAMS] arrays of [MAX_PARAM_LENGTH + 1] characters
    each, allocated once by [main]. *)

Definition alloc_params : list (list ascii) :=
  replicate MAX_PARAMS (replicate (MAX_PARAM_LENGTH + 1) NUL).

(** [a[i][j] = v]; outside the allocation the store is a [Fault]. *)
Definition store (a : list (list ascii)) (i j : nat) (v : ascii)
  : result (list (list ascii)) :=
  match a !! i with
  | Some row =>
      if decide (j < length row) then Ok (<[i := <[j := v]> row]> a) else Fault
  | None => Fault
  end.

(** The C string held in a character array: the characters before the
    first NUL. *)
Fixpoint cstr (row : list ascii) : string :=
  match row with
  | [] => EmptyString
  | c :: row' => if decide (c = NUL) then EmptyString else String c (cstr row')
  end.

Definition param (a : list (list ascii)) (i : nat) : string :=
  cstr (default [] (a !! i)).

(** ** The tokenizer, [parse] *)

(** The two nested [for] loops that zero [a[i][0 .. MAX_PARAM_LENGTH-1]]. *)
Fixpoint clear_cells (i j k : nat) (a : list (list ascii))
  : result (list (list ascii)) :=
  match k with
  | 0 => Ok a
  | S k' => do a' <- store a i j NUL; clear_cells i (S j) k' a'
  end.

Fixpoint clear_rows (i k : nat) (a : list (list ascii))
  : result (list (list ascii)) :=
  match k with
  | 0 => Ok a
  | S k' => do a' <- clear_cells i 0 MAX_PARAM_LENGTH a; clear_rows (S i) k' a'
  end.

(** The local variables of [parse] at the head of the [while] loop. *)
Record pstate : Type := mkPstate {
  ps_a : list (list ascii);
  ps_len : Z;
  ps_paramCount : nat;
  ps_charCount : nat
}.

(** What [parse] hands back: the array, [len], and the world. *)
Record parsed : Type := mkParsed {
  p_a : list (list ascii);
  p_len : Z;
  p_world : World
}.

Inductive flow : Type :=
| Next (st : pstate) (w : World)
| Return (r : parsed).

Definition too_long_msg (paramCount : nat) : string :=
  "Parameter " +:+ show_nat paramCount
  +:+ " exceeds maximum allowed characters: " +:+ show_nat MAX_PARAM_LENGTH
  +:+ "." +:+ endl.

(** One turn of the [while] body, for a character other than newline. *)
Definition parse_body (st : pstate) (curRead : ascii) (w : World) : result flow :=
  if decide (curRead = SPACE) then
    if decide (0 < ps_charCount st) then
      do a' <- store (ps_a st) (ps_paramCount st) (ps_charCount st) NUL;
      let len' := (ps_len st + 1)%Z in
      let paramCount' := S (ps_paramCount st) in
      if decide (MAX_PARAMS <= paramCount') then
        Ok (Return (mkParsed a' len' (clearInput w)))
      else
        Ok (Next (mkPstate a' len' paramCount' 0) w)
    else Ok (Next st w)
  else
    let curRead' :=
      if decide (ps_paramCount st = 0) then tolower curRead else curRead in
    do a' <- store (ps_a st) (ps_paramCount st) (ps_charCount st) curRead';
    let charCount' := S (ps_charCount st) in
    if decide (MAX_PARAM_LENGTH < charCount') then
      let w1 := clearInput w in
      let w2 := cout (too_long_msg (ps_paramCount st)) w1 in
      Ok (Return (mkParsed a' (-1)%Z w2))
    else
      Ok (Next (mkPstate a' (ps_len st) (ps_paramCount st) charCount') w).

(** The code after the loop, once the newline has been read. *)
Definition parse_finish (st : pstate) (w : World) : result parsed :=
  if decide (0 < ps_charCount st) then
    do a' <- store (ps_a st) (ps_paramCount st) (ps_charCount st) NUL;
    Ok (mkParsed a' (ps_len st + 1)%Z w)
  else Ok (mkParsed (ps_a st) (ps_len st) w).

(** The [while ((curRead = cin.get()) != '\n')] loop; [fuel] bounds the
    number of turns. *)
Fixpoint parse_loop (fuel : nat) (st : pstate) (w : World) : result parsed :=
  match fuel with
  | 0 => Timeout
  | S fuel' =>
      let '(curRead, w1) := cin_get w in
      if decide (curRead = nl) then parse_finish st w1
      else
        do fl <- parse_body st curRead w1;
        match fl with
        | Next st' w' => parse_loop fuel' st' w'
        | Return r => Ok r
        end
  end.

(** Turns that always suffice: one per unread character, and at end of
    input at most [MAX_PARAM_LENGTH + 1] more. *)
Definition parse_fuel (w : World) : nat :=
  length (w_cin w) + MAX_PARAM_LENGTH + 2.

Definition parse (a : list (list ascii)) (w : World) : result parsed :=
  do a0 <- clear_rows 0 MAX_PARAMS a;
  parse_loop (parse_fuel w) (mkPstate a0 0%Z 0 0) w.

(** ** Streams *)

(** [isspace] in the C locale. *)
Definition isspace (c : ascii) : bool :=
  let n := nat_of_ascii c in
  (n =? 32) || ((9 <=? n) && (n <=? 13)).

Fixpoint skip_ws (s : list ascii) : list ascii :=
  match s with
  | [] => []
  | c :: s' => if isspace c then skip_ws s' else s
  end.

Fixpoint read_word (s : list ascii) : list ascii * list ascii :=
  match s with
  | [] => ([], [])
  | c :: s' =>
      if isspace c then ([], s)
      else let '(word, rest) := read_word s' in (c :: word, rest)
  end.

(** [cin >> userInput] for a [std::string]: skip white space, then take
    characters up to the next white space or the end of input. *)
Definition cin_read_string (w : World) : string * World :=
  let '(word, rest) := read_word (skip_ws (w_cin w)) in
  (string_of_list_ascii word, set_cin rest w).

(** Opening an [ifstream]: the data it will deliver when the stream is
    good. A directory opens (as on Linux) and delivers nothing. *)
Definition ifstream_open (fileName : string) (w : World)
  : option (list ascii) * World :=
  let w' := log (EvOpenIn fileName) w in
  match w_fs w !! fileName with
  | Some (File data true _) => (Some data, w')
  | Some (Dir _) => (Some [], w')
  | _ => (None, w')
  end.

(** A directory that gets one more entry. *)
Definition add_entry (entry : string) (n : node) : node :=
  match n with
  | Dir entries => Dir (entries ++ [entry])
  | File data r wr => File data r wr
  end.

(** Opening an [ofstream]: an existing writable file is truncated; a
    missing one is created, with its entry in its directory, when the
    world allows it; the stream is good exactly then. *)
Definition ofstream_open (fileName : string) (w : World) : bool * World :=
  let w' := log (EvOpenOut fileName) w in
  match w_fs w !! fileName with
  | Some (File _ r true) => (true, set_fs (<[fileName := File [] r true]> (w_fs w)) w')
  | None =>
      match w_create_in w fileName with
      | Some (dir, entry) =>
          (true, set_fs (<[fileName := File [] true true]>
                           (alter (add_entry entry) dir (w_fs w))) w')
      | None => (false, w')
      end
  | _ => (false, w')
  end.

Definition append_char (c : ascii) (n : node) : node :=
  match n with
  | File data r wr => File (data ++ [c]) r wr
  | Dir es => Dir es
  end.

(** [outStream.put(c)]. *)
Definition ofstream_put (fileName : string) (c : ascii) (w : World) : World :=
  set_fs (alter (append_char c) fileName (w_fs w)) w.

(** [strcmp] on two character arrays; the end of an array counts as the
    terminator. *)
Fixpoint strcmp (x y : list ascii) : Z :=
  match x, y with
  | [], [] => 0
  | [], d :: _ => - Z.of_nat (nat_of_ascii d)
  | c :: _, [] => Z.of_nat (nat_of_ascii c)
  | c :: x', d :: y' =>
      if decide (c = d) then
        if decide (c = NUL) then 0 else strcmp x' y'
      else Z.of_nat (nat_of_ascii c) - Z.of_nat (nat_of_ascii d)
  end%Z.

Definition arg (a : list (list ascii)) (i : nat) : list ascii :=
  default [] (a !! i).

(** ** Helper functions of the commands *)

Definition createInStream (fileName : string) (w : World)
  : bool * option (list ascii) * World :=
  let '(iStream, w1) := ifstream_open fileName w in
  match iStream with
  | None =>
      let w2 := cout ("File " +:+ quote +:+ fileName +:+ quote
                      +:+ " doesn't exist or has invalid permissions." +:+ endl) w1 in
      let w3 := cout ("Cannot continue requested operation." +:+ endl) w2 in
      (false, None, w3)
  | Some data => (true, Some data, w1)
  end.

Definition validateOutFile (fileName : string) (w : World) : bool * World :=
  let '(stream, w1) := ifstream_open fileName w in
  match stream with
  | Some _ =>
      let w2 := cout ("File " +:+ quote +:+ fileName +:+ quote
                      +:+ " already exists." +:+ endl) w1 in
      let w3 := cout ("If you continue, this file will be overwritten." +:+ endl) w2 in
      let w4 := cout "Do you wish to continue (y/n)? " w3 in
      let '(userInput, w5) := cin_read_string w4 in
      let w6 := clearInput w5 in
      if decide (userInput <> "y") then
        (false, cout ("Operation aborted." +:+ endl) w6)
      else (true, w6)
  | None => (true, w1)
  end.

Definition createOutStream (fileName : string) (w : World) : bool * World :=
  let '(good, w1) := ofstream_open fileName w in
  if good then (true, w1)
  else
    let w2 := cout ("Unknown error creating output file" +:+ quote +:+ fileName
                    +:+ quote +:+ "." +:+ endl) w1 in
    (false, cout ("Cannot continue requested operation." +:+ endl) w2).

(** [stat(fileName, &tmpBuffer) == 0]. *)
Definition fileExists (fileName : string) (w : World) : bool * World :=
  (bool_decide (is_Some (w_fs w !! fileName)), log (EvStat fileName) w).

(** ** Command functions *)

(** How a command leaves the interpreter: still running, ended by
    [exit], or replaced by another program image through [execl]. *)
Inductive status : Type :=
| Running
| Exited (code : Z)
| Replaced (path : string).

Definition help_cmd (a : list (list ascii)) (len : Z) (w : World) : status * World :=
  let w := cout (tab +:+ "Welcome to smash v" +:+ PROGRAM_VERSION +:+ "!" +:+ endl +:+ endl) w in
  let w := cout (tab +:+ "The following is a list of valid commands:" +:+ endl +:+ endl) w in
  let w := cout (tab +:+ "run <executable-file>" +:+ endl) w in
  let w := cout (tab +:+ "list" +:+ endl) w in
  let w := cout (tab +:+ "list <directory>" +:+ endl) w in
  let w := cout (tab +:+ "copy <old-filename> <new-filename>" +:+ endl) w in
  let w := cout (tab +:+ "help" +:+ endl) w in
  let w := cout (tab +:+ "quit" +:+ endl +:+ endl) w in
  let w := cout (tab +:+ "Note: All commands are case insensitive (arguments are not)." +:+ endl) w in
  (Running, w).

Definition quit_cmd (a : list (list ascii)) (len : Z) (w : World) : status * World :=
  (Exited 0, cout ("Thanks for choosing smash!" +:+ endl) w).

(** [while (inStream.get(c)) outStream.put(c);] *)
Fixpoint copy_chars (data : list ascii) (out : string) (w : World) : World :=
  match data with
  | [] => w
  | c :: data' => copy_chars data' out (ofstream_put out c w)
  end.

Definition copy_cmd (a : list (list ascii)) (len : Z) (w : World) : status * World :=
  if decide (len <> 3%Z) then
    let w1 := cout ("Invalid number of arguments." +:+ endl) w in
    (Running, cout ("Usage: copy <old-filename> <new-filename>" +:+ endl) w1)
  else if decide (strcmp (arg a 1) (arg a 2) = 0%Z) then
    (Running, cout ("Cannot copy same file!" +:+ endl) w)
  else
    let '(okIn, inStream, w1) := createInStream (param a 1) w in
    if negb okIn then (Running, w1)
    else
      let '(okV, w2) := validateOutFile (param a 2) w1 in
      if negb okV then (Running, w2)
      else
        let '(okOut, w3) := createOutStream (param a 2) w2 in
        if negb okOut then (Running, w3)
        else (Running, copy_chars (default [] inStream) (param a 2) w3).

(** [opendir]: the entries [readdir] will deliver, when it succeeds. *)
Definition opendir (path : string) (w : World) : option (list string) * World :=
  let w' := log (EvOpenDir path) w in
  match w_fs w !! path with
  | Some (Dir entries) => (Some entries, w')
  | _ => (None, w')
  end.

Fixpoint print_entries (entries : list string) (w : World) : World :=
  match entries with
  | [] => w
  | d_name :: rest => print_entries rest (cout endl (cout d_name w))
  end.

Definition list_cmd (a : list (list ascii)) (len : Z) (w : World) : status * World :=
  if decide (len > 2)%Z then
    let w1 := cout ("Too many arguments." +:+ endl) w in
    (Running, cout ("Usage: list [<directory>]" +:+ endl) w1)
  else
    let '(dp, w1) :=
      if decide (len = 2%Z) then opendir (param a 1) w else opendir "./" w in
    match dp with
    | Some entries => (Running, print_entries entries w1)
    | None => (Running, cout ("Unable to open the directory." +:+ endl) w1)
    end.

(** In the parent, [wait] returns once the child has run: the world then
    shows what the child read, printed and changed. *)
Definition run_cmd (a : list (list ascii)) (len : Z) (w : World) : status * World :=
  if decide (len <> 2%Z) then
    let w1 := cout ("Invalid number of arguments." +:+ endl) w in
    (Running, cout ("Usage: run <executable-file>" +:+ endl) w1)
  else
    let '(found, w1) := fileExists (param a 1) w in
    if negb found then
      (Running, cout ("Unable to find executable file " +:+ quote +:+ param a 1
                      +:+ quote +:+ "." +:+ endl) w1)
    else
      let p := w_fork w1 in
      let w2 := log EvFork w1 in
      if decide (p = (-1)%Z) then (Running, cout ("Fork failed." +:+ endl) w2)
      else if decide (p <> 0%Z) then
        let w3 := log EvWait w2 in
        let '(cin', out, fs') := w_child w3 (param a 1) (w_cin w3) (w_fs w3) in
        (Running, set_fs fs' (set_cin cin' (cout out w3)))
      else
        let w4 := log (EvExecl (param a 1)) w2 in
        if w_exec_ok w4 then (Replaced (param a 1), w4) else (Running, w4).

(** ** The registry and the dispatcher *)

Definition function : Type := list (list ascii) -> Z -> World -> status * World.

(** [initMap]. *)
Definition cmdFunctions : gmap string function :=
  <["run" := run_cmd]> (<["list" := list_cmd]> (<["copy" := copy_cmd]>
    (<["quit" := quit_cmd]> (<["help" := help_cmd]> ∅)))).

(** What [main] does with a parsed line. *)
Definition dispatch (a : list (list ascii)) (aLength : Z) (w : World) : status * World :=
  match cmdFunctions !! param a 0 with
  | Some f => f a aLength w
  | None =>
      let w1 := cout ("Unrecognized command: " +:+ quote +:+ param a 0 +:+ quote
                      +:+ "." +:+ endl) w in
      (Running, cout ("Type " +:+ quote +:+ "help" +:+ quote
                      +:+ " to view a list of valid commands." +:+ endl) w1)
  end.

(** One turn of the main loop: prompt, parse, dispatch. *)
Definition main_turn (a : list (list ascii)) (w : World)
  : result (list (list ascii) * status * World) :=
  let w1 := cout PROMPT w in
  do p <- parse a w1;
  if decide (p_len p = (-1)%Z) then Ok (p_a p, Running, p_world p)
  else
    let '(s, w2) := dispatch (p_a p) (p_len p) (p_world p) in
    Ok (p_a p, s, w2).

(** [main]: allocate the array, then loop until a command ends the
    process; [turns] bounds the number of lines handled. *)
Fixpoint main_loop (turns : nat) (a : list (list ascii)) (w : World)
  : result (status * World) :=
  match turns with
  | 0 => Timeout
  | S turns' =>
      do r <- main_turn a w;
      match r with
      | (a', Running, w') => main_loop turns' a' w'
      | (_, s, w') => Ok (s, w')
      end
  end.

Definition main (turns : nat) (w : World) : result (status * World) :=
  main_loop turns alloc_params w.

(** ** Vocabulary of the specification *)

(** The array as [main] allocates it, and as [parse] keeps it. *)
Definition wf_params (a : list (list ascii)) : Prop :=
  length a = MAX_PARAMS /\ Forall (fun row => length row = MAX_PARAM_LENGTH + 1) a.

(** A token: a non-empty run of characters other than space and newline. *)
Definition token_char (c : ascii) : Prop := c <> SPACE /\ c <> nl.
Definition token (t : list ascii) : Prop := t <> [] /\ Forall token_char t.

(** [spaced ts l]: the line [l] (without its newline) holds the tokens [ts]
    in order, separated by one or more spaces, with any number of spaces
    before the first and after the last. *)
Inductive spaced : list (list ascii) -> list ascii -> Prop :=
| spaced_nil n : spaced [] (replicate n SPACE)
| spaced_last n t : spaced [t] (replicate n SPACE ++ t)
| spaced_cons n t ts l :
    spaced ts l -> spaced (t :: ts) (replicate n SPACE ++ t ++ SPACE :: l).

(** What the tokenizer stores for the token in slot [i]. *)
Definition norm (i : nat) (t : list ascii) : list ascii :=
  if decide (i = 0) then map tolower t else t.

(** Slot [i] of the array holds the characters [t] and then the
    terminator. *)
Definition stored (a : list (list ascii)) (i : nat) (t : list ascii) : Prop :=
  take (S (length t)) (arg a i) = t ++ [NUL].

(** A path that an [ifstream] can open. *)
Definition opens_for_reading (fs : gmap string node) (path : string) : bool :=
  match fs !! path with
  | Some (File _ true _) | Some (Dir _) => true
  | _ => false
  end.

(** The standard input holding [line], its newline, and then [rest]. *)
Definition with_line (line rest : list ascii) (w : World) : World :=
  set_cin (line ++ nl :: rest) w.

(** The [while] body run over the characters [l] of a line, and the
    code after the loop applied to what it leaves. *)
Fixpoint run_chars (l : list ascii) (st : pstate) (w : World) : result flow :=
  match l with
  | [] => Ok (Next st w)
  | c :: l' =>
      do fl <- parse_body st c w;
      match fl with
      | Next st' _ => run_chars l' st' w
      | Return r => Ok (Return r)
      end
  end.

Definition finish_line (fl : result flow) (w : World) : result parsed :=
  do f <- fl;
  match f with
  | Next st _ => parse_finish st w
  | Return r => Ok r
  end.

(** The tokens [ts] written with exactly one space after each. *)
Fixpoint canon (ts : list (list ascii)) : list ascii :=
  match ts with
  | [] => []
  | t :: ts' => (t ++ [SPACE]) ++ canon ts'
  end.

(** The array after the tokenizer has stored token [t] in slot [p], and
    after it has stored the tokens [ts] in the slots from [p] on. *)
Definition put_token (a : list (list ascii)) (p : nat) (t : list ascii)
  : list (list ascii) :=
  <[p := norm p t ++ NUL :: drop (S (length t)) (arg a p)]> a.

Fixpoint put_tokens (a : list (list ascii)) (p : nat) (ts : list (list ascii))
  : list (list ascii) :=
  match ts with
  | [] => a
  | t :: ts' => put_tokens (put_token a p t) (S p) ts'
  end.

Definition short (t : list ascii) : Prop := length t <= MAX_PARAM_LENGTH.

#[global] Instance token_char_dec c : Decision (token_char c).
Proof. unfold token_char. apply _. Defined.
#[global] Instance token_dec t : Decision (token t).
Proof. unfold token. apply _. Defined.
#[global] Instance short_dec t : Decision (short t).
Proof. unfold short. apply _. Defined.

(** Sample inputs. *)
Definition tok (s : string) : list ascii := list_ascii_of_string s.
Definition xs (n : nat) : list ascii := replicate n "x"%char.
Definition in_cwd (name : string) : option (string * string) := Some ("./", name).
Definition idle_child (path : string) (cin : list ascii) (fs : gmap string node)
  : list ascii * string * gmap string node := (cin, EmptyString, fs).
Definition quiet_world : World :=
  mkWorld [] EmptyString ∅ [] 1%Z true in_cwd idle_child.

Definition sample_params (ts : list string) : list (list ascii) :=
  put_tokens alloc_params 0 (map tok ts).
Definition sample_fs : gmap string node :=
  <["a.txt" := File (tok "hello") true true]>
    (<["b.txt" := File (tok "old") true true]> ∅).
(** A world whose current directory is listed, and where a name can be
    created exactly when it has no slash. *)
Definition flat_only (name : string) : option (string * string) :=
  if bool_decide ("/"%char ∈ list_ascii_of_string name) then None
  else Some ("./", name).
Definition cwd_world : World :=
  mkWorld [] EmptyString
    (<["./" := Dir ["."; ".."; "a.txt"; "b.txt"] ]> sample_fs) [] 1%Z true
    flat_only idle_child.
Definition sample_world (input : string) : World :=
  mkWorld (tok input) EmptyString sample_fs [] 1%Z true in_cwd idle_child.

(** The loop invariant of [parse]. *)
Definition pinv (st : pstate) : Prop :=
  wf_params (ps_a st) /\ ps_paramCount st < MAX_PARAMS
  /\ ps_charCount st <= MAX_PARAM_LENGTH.

(** Enough turns: one per unread character, and once the input has run
    out, one per character that still fits in the current parameter. *)
Definition turns_needed (st : pstate) (w : World) : nat :=
  match w_cin w with
  | [] => MAX_PARAM_LENGTH + 2 - ps_charCount st
  | _ => length (w_cin w) + MAX_PARAM_LENGTH + 2
  end.

(** A [flow] with its world replaced. *)
Definition retarget (w : World) (fl : flow) : flow :=
  match fl with
  | Next st _ => Next st w
  | Return r => Return r
  end.

(** What [copy] does up to the answer to the overwrite question, when it
    gets that far. *)
Definition asked (a : list (list ascii)) (w : World) : World :=
  let w1 := log (EvOpenIn (param a 2)) (log (EvOpenIn (param a 1)) w) in
  let w2 := cout ("File " +:+ quote +:+ param a 2 +:+ quote
                  +:+ " already exists." +:+ endl) w1 in
  let w3 := cout ("If you continue, this file will be overwritten." +:+ endl) w2 in
  let w4 := cout "Do you wish to continue (y/n)? " w3 in
  clearInput (snd (cin_read_string w4)).

(** A row after clearing: [MAX_PARAM_LENGTH] NULs, the last cell as it was. *)
Definition cleared_row (row : list ascii) : list ascii :=
  replicate MAX_PARAM_LENGTH NUL ++ drop MAX_PARAM_LENGTH row.

(** The two lines [main] prints for a command it does not know. *)
Definition unrecognized (name : string) (w : World) : World :=
  cout ("Type " +:+ quote +:+ "help" +:+ quote
        +:+ " to view a list of valid commands." +:+ endl)
    (cout ("Unrecognized command: " +:+ quote +:+ name +:+ quote +:+ "." +:+ endl) w).

(** The entries of a directory, one per line. *)
Fixpoint listing (entries : list string) : string :=
  match entries with
  | [] => EmptyString
  | d_name :: rest => d_name +:+ endl +:+ listing rest
  end.

(** * Properties *)

(** Arithmetic with the program's constants. *)
Ltac klia := unfold MAX_PARAMS, MAX_PARAM_LENGTH in *; cbn [length] in *; lia.

(** ** The array stays well formed and every store is inside it *)

Lemma wf_alloc_params : wf_params alloc_params.
Proof.
  split; [apply length_replicate|].
  apply Forall_replicate, length_replicate.
Qed.

Lemma store_Ok a i j v :
  wf_params a -> i < MAX_PARAMS -> j <= MAX_PARAM_LENGTH ->
  store a i j v = Ok (<[i := <[j := v]> (arg a i)]> a).
Proof.
  intros [La Ha] Hi Hj. unfold store, arg.
  destruct (a !! i) as [row|] eqn:E.
  - assert (length row = MAX_PARAM_LENGTH + 1) as Lr.
    { eapply (proj1 (Forall_lookup _ _) Ha); eauto. }
    simpl. case_decide; [done | lia].
  - apply lookup_ge_None in E. lia.
Qed.

Lemma store_in_bounds a i j v a' :
  wf_params a -> store a i j v = Ok a' -> i < MAX_PARAMS /\ j <= MAX_PARAM_LENGTH.
Proof.
  intros [La Ha]. unfold store.
  destruct (a !! i) as [row|] eqn:E; [|done].
  assert (length row = MAX_PARAM_LENGTH + 1) as Lr.
  { eapply (proj1 (Forall_lookup _ _) Ha); eauto. }
  apply lookup_lt_Some in E. case_decide; [|done]. intros _. lia.
Qed.

Lemma store_wf a i j v a' : wf_params a -> store a i j v = Ok a' -> wf_params a'.
Proof.
  intros [La Ha]. unfold store.
  destruct (a !! i) as [row|] eqn:E; [|done].
  case_decide; [|done]. intros [= <-]. split.
  - by rewrite length_insert.
  - apply Forall_insert; [done|]. rewrite length_insert.
    eapply (proj1 (Forall_lookup _ _) Ha); eauto.
Qed.

Lemma wf_insert a i row :
  wf_params a -> length row = MAX_PARAM_LENGTH + 1 -> wf_params (<[i := row]> a).
Proof.
  intros [La Ha] Hr. split; [by rewrite length_insert|].
  by apply Forall_insert.
Qed.

Lemma wf_arg_length a i :
  wf_params a -> i < MAX_PARAMS -> length (arg a i) = MAX_PARAM_LENGTH + 1.
Proof.
  intros [La Ha] Hi. unfold arg.
  destruct (a !! i) as [row|] eqn:E.
  - simpl. eapply (proj1 (Forall_lookup _ _) Ha); eauto.
  - apply lookup_ge_None in E. lia.
Qed.

Lemma clear_cells_Ok i : forall k j a,
  wf_params a -> i < MAX_PARAMS -> j + k <= MAX_PARAM_LENGTH ->
  exists a', clear_cells i j k a = Ok a' /\ wf_params a'.
Proof.
  induction k as [|k IH]; intros j a Ha Hi Hj; cbn [clear_cells].
  - eauto.
  - rewrite store_Ok by (done || lia). cbn [rbind].
    apply IH; [|done|lia].
    eapply store_wf; [done|]. apply store_Ok; (done || lia).
Qed.

Lemma clear_rows_Ok : forall k i a,
  wf_params a -> i + k <= MAX_PARAMS ->
  exists a', clear_rows i k a = Ok a' /\ wf_params a'.
Proof.
  induction k as [|k IH]; intros i a Ha Hi; cbn [clear_rows].
  - eauto.
  - destruct (clear_cells_Ok i MAX_PARAM_LENGTH 0 a) as (a1 & -> & Ha1);
      [done|lia|lia|].
    cbn [rbind]. apply IH; [done|lia].
Qed.

Lemma pinv_intro a len p cc :
  wf_params a -> p < MAX_PARAMS -> cc <= MAX_PARAM_LENGTH ->
  pinv (mkPstate a len p cc).
Proof. intros. unfold pinv. cbn. auto. Qed.

Lemma parse_body_safe st c w :
  pinv st ->
  exists fl, parse_body st c w = Ok fl /\
    match fl with
    | Next st' w' => pinv st' /\ w' = w /\
        (c <> SPACE -> ps_charCount st' = S (ps_charCount st))
    | Return r => wf_params (p_a r)
    end.
Proof.
  intros Hinv. pose proof Hinv as (Ha & Hp & Hc). unfold parse_body.
  assert (forall v, wf_params (<[ps_paramCount st := <[ps_charCount st := v]>
            (arg (ps_a st) (ps_paramCount st))]> (ps_a st))) as Hwf.
  { intros v. eapply store_wf; [done|]. by apply store_Ok. }
  case_decide as Hsp.
  - case_decide as Hcc.
    + rewrite store_Ok by done. cbn [rbind].
      case_decide; eexists; (split; [done|]); cbn; [done|].
      split; [apply pinv_intro; [done|klia|klia]|].
      split; [done|]. intros; congruence.
    + eexists; split; [done|]. split; [done|]. split; [done|]. intros; congruence.
  - rewrite store_Ok by done. cbn [rbind].
    case_decide; eexists; (split; [done|]); cbn; [done|].
    split; [apply pinv_intro; [done|klia|klia]|]. by split.
Qed.

Lemma parse_finish_safe st w :
  pinv st -> exists r, parse_finish st w = Ok r /\ wf_params (p_a r).
Proof.
  intros (Ha & Hp & Hc). unfold parse_finish. case_decide.
  - rewrite store_Ok by done. simpl. eexists; split; [done|]. simpl.
    eapply store_wf; [done|]. by apply store_Ok.
  - eauto.
Qed.

Lemma nl_not_EOF : EOF_char <> nl.
Proof. done. Qed.

Lemma parse_loop_safe : forall fuel st w,
  pinv st -> turns_needed st w <= fuel ->
  exists r, parse_loop fuel st w = Ok r /\ wf_params (p_a r).
Proof.
  induction fuel as [|fuel IH]; intros st w Hinv Hfuel.
  - unfold turns_needed, MAX_PARAM_LENGTH in Hfuel.
    destruct Hinv as (_ & _ & Hc). unfold MAX_PARAM_LENGTH in Hc.
    destruct (w_cin w); simpl in Hfuel; lia.
  - simpl. unfold cin_get. destruct (w_cin w) as [|c s] eqn:Ecin.
    + rewrite decide_False by apply nl_not_EOF.
      destruct (parse_body_safe st EOF_char w Hinv) as (fl & -> & Hfl). simpl.
      destruct fl as [st' w'|r]; [|eauto].
      destruct Hfl as (Hinv' & -> & Hcc). apply IH; [done|].
      unfold turns_needed in *. rewrite Ecin in *.
      rewrite Hcc by done. lia.
    + case_decide.
      * by apply parse_finish_safe.
      * destruct (parse_body_safe st c (set_cin s w) Hinv) as (fl & -> & Hfl). simpl.
        destruct fl as [st' w'|r]; [|eauto].
        destruct Hfl as (Hinv' & -> & Hcc). apply IH; [done|].
        unfold turns_needed in *. rewrite Ecin in Hfuel. simpl in *.
        destruct Hinv' as (_ & _ & Hc'). destruct s; simpl in *; lia.
Qed.

(** ** From the loop to the characters of a line *)

Lemma ignore_line_app l rest :
  Forall (fun c => c <> nl) l -> ignore_line (l ++ nl :: rest) = rest.
Proof.
  induction 1 as [|c l Hc _ IH]; cbn.
  - by rewrite decide_True.
  - by rewrite decide_False.
Qed.

Lemma clearInput_with_line l rest w :
  Forall (fun c => c <> nl) l -> clearInput (with_line l rest w) = set_cin rest w.
Proof.
  intros Hl. unfold clearInput, with_line. cbn. by rewrite ignore_line_app.
Qed.

Lemma parse_body_cin st c w w' :
  clearInput w = clearInput w' ->
  parse_body st c w = do fl <- parse_body st c w'; Ok (retarget w fl).
Proof.
  intros Hw. unfold parse_body. rewrite Hw.
  repeat case_decide; try done;
    match goal with |- context [store ?a ?i ?j ?v] => by destruct (store a i j v) end.
Qed.

Lemma parse_loop_line rest w : forall l fuel st,
  Forall (fun c => c <> nl) l -> length l < fuel ->
  parse_loop fuel st (with_line l rest w)
  = finish_line (run_chars l st (with_line [] rest w)) (set_cin rest w).
Proof.
  pose proof (clearInput_with_line [] rest w (List.Forall_nil _)) as Hw0.
  set (w0 := with_line [] rest w) in *.
  induction l as [|c l IH]; intros fuel st Hl Hfuel;
    (destruct fuel as [|fuel]; [cbn in Hfuel; lia|]).
  - cbn. by rewrite decide_True.
  - inversion_clear Hl as [|? ? Hc Hl'].
    cbn [parse_loop]. unfold cin_get. unfold with_line at 1.
    cbn [w_cin set_cin app]. rewrite decide_False by done.
    change (set_cin (l ++ nl :: rest) (with_line (c :: l) rest w))
      with (with_line l rest w).
    rewrite (parse_body_cin st c _ w0)
      by (by rewrite Hw0, clearInput_with_line).
    cbn [run_chars]. destruct (parse_body st c w0) as [[st' w'|r]| |]; try done.
    cbn. apply IH; [done|]. cbn in Hfuel. lia.
Qed.

Lemma run_chars_app l1 l2 st w :
  run_chars (l1 ++ l2) st w
  = do fl <- run_chars l1 st w;
    match fl with
    | Next st' _ => run_chars l2 st' w
    | Return r => Ok (Return r)
    end.
Proof.
  revert st. induction l1 as [|c l1 IH]; intros st; cbn [app run_chars rbind].
  - done.
  - destruct (parse_body st c w) as [[st' w'|r]| |]; cbn [rbind]; done.
Qed.

Lemma run_chars_spaces n st w :
  ps_charCount st = 0 -> run_chars (replicate n SPACE) st w = Ok (Next st w).
Proof.
  intros Hcc. induction n as [|n IH]; cbn [replicate run_chars]; [done|].
  unfold parse_body. rewrite decide_True by done.
  rewrite decide_False by lia. cbn [rbind]. done.
Qed.

Lemma run_chars_token_cc w : forall t st st' w',
  Forall token_char t -> run_chars t st w = Ok (Next st' w') ->
  ps_charCount st' = ps_charCount st + length t.
Proof.
  induction t as [|c t IH]; intros st st' w' Ht; cbn [run_chars length].
  - intros [= <- _]. lia.
  - inversion_clear Ht as [|? ? [Hc _] Ht'].
    unfold parse_body. rewrite decide_False by done.
    destruct (store _ _ _ _) as [a'| |]; cbn [rbind]; try done.
    case_decide; cbn [rbind]; [done|].
    intros Hrun%IH; [|done]. cbn in Hrun. lia.
Qed.

(** A space after at least one character of a parameter ends it. *)
Lemma run_delim st w wr :
  clearInput w = wr -> 0 < ps_charCount st ->
  finish_line (run_chars [SPACE] st w) wr = parse_finish st wr.
Proof.
  intros Hw Hcc. cbn [run_chars]. unfold parse_body, parse_finish.
  rewrite decide_True by done. rewrite !decide_True by done.
  destruct (store _ _ _ _) as [a'| |]; cbn [rbind]; try done.
  case_decide; cbn; [by rewrite Hw|]. done.
Qed.

Lemma run_delim_cc st w st' w' :
  0 < ps_charCount st ->
  run_chars [SPACE] st w = Ok (Next st' w') -> ps_charCount st' = 0.
Proof.
  intros Hcc. cbn [run_chars]. unfold parse_body.
  rewrite decide_True by done. rewrite decide_True by done.
  destruct (store _ _ _ _) as [a'| |]; cbn [rbind]; try done.
  case_decide; cbn; [done|]. by intros [= <- _].
Qed.

(** Any spacing of the tokens is read like the canonical one. *)
Lemma run_spaced w wr :
  clearInput w = wr ->
  forall ts l, spaced ts l -> Forall token ts ->
  forall st, ps_charCount st = 0 ->
  finish_line (run_chars l st w) wr = finish_line (run_chars (canon ts) st w) wr.
Proof.
  intros Hw ts l Hsp. induction Hsp as [n|n t|n t ts l Hsp IH]; intros Hts st Hcc.
  - by rewrite run_chars_spaces.
  - cbn [canon]. rewrite app_nil_r.
    rewrite !run_chars_app, run_chars_spaces by done. cbn [rbind].
    inversion_clear Hts as [|? ? [Hne Ht] _].
    destruct (run_chars t st w) as [[st' w'|r]| |] eqn:E; cbn [rbind]; try done.
    apply run_chars_token_cc in E; [|done].
    rewrite (run_delim st' w wr); [done|done|].
    destruct t; [done|]. cbn in E. lia.
  - inversion_clear Hts as [|? ? [Hne Ht] Hts'].
    cbn [canon]. rewrite <- !app_assoc. cbn [app].
    rewrite (run_chars_app (replicate n SPACE)), run_chars_spaces by done.
    cbn [rbind].
    rewrite !(run_chars_app t). 
    destruct (run_chars t st w) as [[st' w'|r]| |] eqn:E; cbn [rbind]; try done.
    apply run_chars_token_cc in E; [|done].
    change (SPACE :: l) with ([SPACE] ++ l).
    change (SPACE :: canon ts) with ([SPACE] ++ canon ts).
    rewrite !(run_chars_app [SPACE]).
    destruct (run_chars [SPACE] st' w) as [[st'' w''|r]| |] eqn:E'; cbn [rbind]; try done.
    apply IH; [done|].
    apply run_delim_cc in E'; [done|].
    destruct t; [done|]. cbn in E. lia.
Qed.

(** ** What the tokenizer stores *)

Lemma spaced_no_nl ts l :
  spaced ts l -> Forall token ts -> Forall (fun c => c <> nl) l.
Proof.
  assert (forall n, Forall (fun c => c <> nl) (replicate n SPACE)) as Hsp
    by (intros n; by apply Forall_replicate).
  assert (forall t, token t -> Forall (fun c => c <> nl) t) as Htok.
  { intros t [_ Ht]. eapply Forall_impl; [done|]. by intros c [_ ?]. }
  induction 1 as [n|n t|n t ts l _ IH]; intros Hts.
  - done.
  - inversion_clear Hts. apply Forall_app; auto.
  - inversion_clear Hts. apply Forall_app; split; [done|].
    apply Forall_app; split; [auto|]. constructor; [done|auto].
Qed.

Lemma spaced_space ts l : spaced ts l -> spaced ts (SPACE :: l).
Proof.
  destruct 1 as [n|n t|n t ts l H].
  - exact (spaced_nil (S n)).
  - exact (spaced_last (S n) t).
  - exact (spaced_cons (S n) t ts l H).
Qed.

(** Every line is a spacing of its tokens, so the statements below that
    start from [spaced ts l] speak of every input line. *)
Lemma spaced_exists l :
  Forall (fun c => c <> nl) l -> exists ts, Forall token ts /\ spaced ts l.
Proof.
  induction 1 as [|c l Hc _ (ts & Hts & Hsp)].
  - exists []. split; [constructor|exact (spaced_nil 0)].
  - destruct (decide (c = SPACE)) as [->|Hsp'].
    { exists ts. split; [done|by apply spaced_space]. }
    assert (token [c]) as Hc1 by (split; [done|by repeat constructor]).
    assert (forall t, token t -> token (c :: t)) as Hct.
    { intros t [_ Ht]. split; [done|]. by constructor. }
    destruct Hsp as [[|n]|[|n] t|[|n] t ts l Hsp].
    + exists [[c]]. split; [by constructor|exact (spaced_last 0 [c])].
    + exists [[c]]. split; [by constructor|].
      exact (spaced_cons 0 [c] [] _ (spaced_nil n)).
    + inversion_clear Hts. exists [c :: t]. split; [constructor; auto|].
      exact (spaced_last 0 (c :: t)).
    + exists [[c]; t]. split; [by constructor|].
      exact (spaced_cons 0 [c] [t] _ (spaced_last n t)).
    + inversion_clear Hts. exists ((c :: t) :: ts). split; [constructor; auto|].
      exact (spaced_cons 0 (c :: t) ts l Hsp).
    + exists ([c] :: t :: ts). split; [by constructor|].
      exact (spaced_cons 0 [c] (t :: ts) _ (spaced_cons n t ts l Hsp)).
Qed.

Lemma parse_spaced a w ts l rest :
  spaced ts l -> Forall token ts ->
  parse a (with_line l rest w)
  = do a0 <- clear_rows 0 MAX_PARAMS a;
    finish_line (run_chars (canon ts) (mkPstate a0 0%Z 0 0) (with_line [] rest w))
                (set_cin rest w).
Proof.
  intros Hsp Hts. unfold parse.
  destruct (clear_rows 0 MAX_PARAMS a) as [a0| |]; cbn [rbind]; try done.
  rewrite parse_loop_line.
  - apply run_spaced; [|done..]. apply clearInput_with_line. constructor.
  - by eapply spaced_no_nl.
  - unfold parse_fuel, with_line. cbn [w_cin set_cin]. rewrite length_app. lia.
Qed.

Lemma norm_length p t : length (norm p t) = length t.
Proof. unfold norm. case_decide; [apply length_map|done]. Qed.

Lemma norm_cons p c t :
  norm p (c :: t) = (if decide (p = 0) then tolower c else c) :: norm p t.
Proof. unfold norm. by case_decide. Qed.

Lemma arg_lookup a i : i < length a -> a !! i = Some (arg a i).
Proof.
  intros Hi. unfold arg. destruct (a !! i) eqn:E; [done|].
  apply lookup_ge_None in E. lia.
Qed.

Lemma arg_insert_eq a i row : i < length a -> arg (<[i := row]> a) i = row.
Proof. intros Hi. unfold arg. by rewrite list_lookup_insert_eq. Qed.

Lemma arg_insert_ne a i j row : i <> j -> arg (<[i := row]> a) j = arg a j.
Proof. intros Hi. unfold arg. by rewrite list_lookup_insert_ne. Qed.

(** The characters of a token that fits go into the current slot, one
    after the other. *)
Lemma run_token_chars len p w : forall t a cc,
  wf_params a -> p < MAX_PARAMS -> cc + length t <= MAX_PARAM_LENGTH ->
  Forall token_char t ->
  run_chars t (mkPstate a len p cc) w
  = Ok (Next (mkPstate
               (<[p := take cc (arg a p) ++ norm p t ++ drop (cc + length t) (arg a p)]> a)
               len p (cc + length t)) w).
Proof.
  induction t as [|c t IH]; intros a cc Ha Hp Hcc Ht.
  - cbn [run_chars length]. rewrite Nat.add_0_r.
    replace (norm p []) with (@nil ascii) by (unfold norm; by case_decide).
    cbn [app]. rewrite take_drop, list_insert_id; [done|].
    apply arg_lookup. destruct Ha as [-> _]. done.
  - inversion_clear Ht as [|? ? [Hc _] Ht']. cbn [length] in Hcc.
    cbn [run_chars]. unfold parse_body. cbn [ps_a ps_len ps_paramCount ps_charCount].
    rewrite decide_False by done.
    rewrite store_Ok by (done || lia). cbn [rbind].
    rewrite decide_False by lia. cbn [rbind].
    pose proof (wf_arg_length a p Ha Hp) as Lrow.
    assert (p < length a) as Hpa by (by destruct Ha as [-> _]).
    rewrite IH; [|by (eapply store_wf; [done|]; apply store_Ok; (done || lia))
                 |done|lia|done].
    rewrite arg_insert_eq by done. rewrite list_insert_insert_eq.
    rewrite norm_cons. cbn [length].
    rewrite (take_S_r _ _ (if decide (p = 0) then tolower c else c))
      by (apply list_lookup_insert_eq; lia).
    rewrite take_insert_ge by lia. rewrite drop_insert_lt by lia.
    rewrite <- app_assoc. cbn [app].
    by replace (cc + S (length t)) with (S cc + length t) by lia.
Qed.

Lemma put_token_wf a p t :
  wf_params a -> p < MAX_PARAMS -> short t -> wf_params (put_token a p t).
Proof.
  intros Ha Hp Ht. apply wf_insert; [done|].
  pose proof (wf_arg_length a p Ha Hp) as Lrow. unfold short in Ht.
  rewrite length_app, norm_length. cbn [length]. rewrite length_drop. lia.
Qed.

(** A token that fits, followed by a space: it is terminated and counted,
    and the tokenizer either moves to the next slot or, at the last slot,
    returns. *)
Lemma run_token a len p t w :
  wf_params a -> p < MAX_PARAMS -> token t -> short t ->
  run_chars (t ++ [SPACE]) (mkPstate a len p 0) w
  = Ok (if decide (MAX_PARAMS <= S p)
        then Return (mkParsed (put_token a p t) (len + 1)%Z (clearInput w))
        else Next (mkPstate (put_token a p t) (len + 1)%Z (S p) 0) w).
Proof.
  intros Ha Hp [Hne Ht] Hsh. unfold short in Hsh.
  rewrite run_chars_app, run_token_chars by (done || lia). cbn [rbind].
  cbn [run_chars]. unfold parse_body. cbn [ps_a ps_len ps_paramCount ps_charCount].
  rewrite decide_True by done.
  rewrite decide_True by (destruct t; [done|cbn; lia]).
  pose proof (wf_arg_length a p Ha Hp) as Lrow.
  assert (p < length a) as Hpa by (by destruct Ha as [-> _]).
  rewrite take_0. cbn [app Nat.add].
  rewrite store_Ok; [|apply wf_insert; [done|]|done|lia].
  2:{ rewrite length_app, norm_length, length_drop. lia. }
  cbn [rbind]. rewrite arg_insert_eq by done. rewrite list_insert_insert_eq.
  assert (<[length t := NUL]> (norm p t ++ drop (length t) (arg a p))
          = norm p t ++ NUL :: drop (S (length t)) (arg a p)) as ->.
  { rewrite insert_app_r_alt by (rewrite norm_length; lia).
    rewrite norm_length, Nat.sub_diag. f_equal.
    destruct (drop (length t) (arg a p)) as [|y ys] eqn:E.
    - apply (f_equal length) in E. rewrite length_drop in E. cbn in E. lia.
    - cbn. f_equal. replace (S (length t)) with (length t + 1) by lia.
      by rewrite <- drop_drop, E. }
  by case_decide.
Qed.

(** A token that does not fit: the tokenizer gives up at its character
    number [MAX_PARAM_LENGTH + 1], whatever follows. *)
Lemma run_long a len p t more w :
  wf_params a -> p < MAX_PARAMS -> Forall token_char t ->
  MAX_PARAM_LENGTH < length t ->
  exists a', wf_params a' /\
    run_chars (t ++ more) (mkPstate a len p 0) w
    = Ok (Return (mkParsed a' (-1)%Z (cout (too_long_msg p) (clearInput w)))).
Proof.
  intros Ha Hp Ht Hlen.
  rewrite <- (take_drop MAX_PARAM_LENGTH t) in Ht |- *.
  apply Forall_app in Ht as [Ht1 Ht2].
  destruct (drop MAX_PARAM_LENGTH t) as [|c t2] eqn:E.
  { apply (f_equal length) in E. rewrite length_drop in E. cbn in E. lia. }
  inversion_clear Ht2 as [|? ? [Hc _] _].
  assert (length (take MAX_PARAM_LENGTH t) = MAX_PARAM_LENGTH) as Lt
    by (rewrite length_take; lia).
  rewrite <- !app_assoc, run_chars_app. cbn [app].
  rewrite run_token_chars by (done || lia). cbn [rbind].
  cbn [run_chars]. unfold parse_body. cbn [ps_a ps_len ps_paramCount ps_charCount].
  rewrite decide_False by done.
  match goal with |- context [store ?a1 _ _ _] => assert (wf_params a1) as Ha1 end.
  { apply wf_insert; [done|]. pose proof (wf_arg_length a p Ha Hp) as Lrow.
    rewrite take_0. cbn [app Nat.add].
    rewrite length_app, norm_length, length_drop. lia. }
  rewrite store_Ok by (done || lia). cbn [rbind].
  rewrite decide_True by lia. cbn [rbind].
  eexists; split; [|done].
  eapply store_wf; [exact Ha1|]. apply store_Ok; (done || lia).
Qed.

Lemma put_tokens_wf : forall ts a p,
  wf_params a -> p + length ts <= MAX_PARAMS -> Forall short ts ->
  wf_params (put_tokens a p ts).
Proof.
  induction ts as [|t ts IH]; intros a p Ha Hp Hsh; cbn [put_tokens]; [done|].
  inversion_clear Hsh. cbn [length] in Hp.
  apply IH; [apply put_token_wf; (done || lia)|lia|done].
Qed.

(** Fewer tokens than free slots: all are stored and the loop goes on. *)
Lemma run_canon_lt w : forall ts a len p,
  wf_params a -> Forall token ts -> Forall short ts ->
  p + length ts < MAX_PARAMS ->
  run_chars (canon ts) (mkPstate a len p 0) w
  = Ok (Next (mkPstate (put_tokens a p ts) (len + Z.of_nat (length ts))%Z
                       (p + length ts) 0) w).
Proof.
  induction ts as [|t ts IH]; intros a len p Ha Hts Hsh Hp.
  - cbn. do 3 f_equal; lia.
  - inversion_clear Hts. inversion_clear Hsh. cbn [length] in Hp.
    cbn [canon put_tokens]. rewrite run_chars_app, run_token by (done || lia).
    rewrite decide_False by lia. cbn [rbind].
    rewrite IH; [|apply put_token_wf; (done || lia)|done|done|lia].
    cbn [length]. do 3 f_equal; lia.
Qed.

Lemma canon_app ts1 ts2 : canon (ts1 ++ ts2) = canon ts1 ++ canon ts2.
Proof.
  induction ts1 as [|t ts1 IH]; cbn [canon app]; [done|].
  by rewrite IH, !app_assoc.
Qed.

Lemma put_tokens_app : forall ts1 ts2 a p,
  put_tokens a p (ts1 ++ ts2) = put_tokens (put_tokens a p ts1) (p + length ts1) ts2.
Proof.
  induction ts1 as [|t ts1 IH]; intros ts2 a p; cbn [put_tokens app length].
  - by rewrite Nat.add_0_r.
  - rewrite IH. f_equal. lia.
Qed.

(** As many tokens as free slots, or more: the first ones fill the slots
    and the tokenizer returns at the space after the last of them. *)
Lemma run_canon_full w ts more a len p :
  wf_params a -> Forall token ts -> Forall short ts ->
  p + length ts = MAX_PARAMS -> 0 < length ts ->
  run_chars (canon ts ++ more) (mkPstate a len p 0) w
  = Ok (Return (mkParsed (put_tokens a p ts) (len + Z.of_nat (length ts))%Z
                         (clearInput w))).
Proof.
  intros Ha Hts Hsh Hp Hlen.
  assert (ts <> []) as Hne by (intros ->; cbn in Hlen; lia).
  destruct (exists_last Hne) as (ts1 & t & ->). clear Hne.
  rewrite length_app in Hp, Hlen |- *. cbn [length] in Hp, Hlen |- *.
  apply Forall_app in Hts as [Hts1 Ht]. apply Forall_app in Hsh as [Hsh1 Hs].
  inversion_clear Ht. inversion_clear Hs.
  rewrite canon_app, <- app_assoc, run_chars_app, run_canon_lt by (done || lia).
  cbn [rbind canon]. rewrite app_nil_r, run_chars_app.
  rewrite run_token; [|apply put_tokens_wf; (done || lia)|lia|done|done].
  rewrite decide_True by lia. cbn [rbind].
  rewrite put_tokens_app. cbn [put_tokens]. do 3 f_equal. lia.
Qed.

Lemma put_token_arg_ne a p t j : j <> p -> arg (put_token a p t) j = arg a j.
Proof. intros Hj. unfold put_token. by rewrite arg_insert_ne. Qed.

Lemma put_tokens_below : forall ts a p j,
  j < p -> arg (put_tokens a p ts) j = arg a j.
Proof.
  induction ts as [|t ts IH]; intros a p j Hj; cbn [put_tokens]; [done|].
  rewrite IH by lia. apply put_token_arg_ne. lia.
Qed.

Lemma stored_put_token a p t :
  wf_params a -> p < MAX_PARAMS -> stored (put_token a p t) p (norm p t).
Proof.
  intros [La _] Hp. unfold stored, put_token.
  rewrite arg_insert_eq by lia.
  change (?x ++ NUL :: ?y) with (x ++ [NUL] ++ y). rewrite app_assoc.
  apply take_app_length'. rewrite length_app. cbn. lia.
Qed.

Lemma stored_put_tokens : forall ts a p i t,
  wf_params a -> p + length ts <= MAX_PARAMS -> Forall short ts ->
  ts !! i = Some t -> stored (put_tokens a p ts) (p + i) (norm (p + i) t).
Proof.
  induction ts as [|t0 ts IH]; intros a p i t Ha Hp Hsh Hi; [done|].
  inversion_clear Hsh. cbn [length] in Hp. cbn [put_tokens].
  destruct i as [|i]; cbn in Hi.
  - injection Hi as ->. rewrite Nat.add_0_r. unfold stored.
    rewrite put_tokens_below by lia. apply stored_put_token; (done || lia).
  - replace (p + S i) with (S p + i) by lia.
    apply IH; [apply put_token_wf; (done || lia)|lia|done|done].
Qed.

(** A line whose first [MAX_PARAMS] tokens fit: what [parse] returns. *)
Lemma parse_accepts a w ts l rest :
  wf_params a -> spaced ts l -> Forall token ts ->
  Forall short (take MAX_PARAMS ts) ->
  exists a0, wf_params a0 /\
    parse a (with_line l rest w)
    = Ok (mkParsed (put_tokens a0 0 (take MAX_PARAMS ts))
                   (Z.of_nat (length ts `min` MAX_PARAMS)) (set_cin rest w)).
Proof.
  intros Ha Hsp Hts Hsh. rewrite (parse_spaced a w ts l rest) by done.
  destruct (clear_rows_Ok MAX_PARAMS 0 a) as (a0 & -> & Ha0); [done|lia|].
  cbn [rbind]. exists a0. split; [done|].
  destruct (decide (length ts < MAX_PARAMS)) as [Hlt|Hge].
  - rewrite take_ge in Hsh |- * by lia.
    rewrite run_canon_lt by (done || lia).
    unfold finish_line, parse_finish. cbn.
    do 2 f_equal. lia.
  - rewrite <- (take_drop MAX_PARAMS ts) at 1. rewrite canon_app.
    assert (length (take MAX_PARAMS ts) = MAX_PARAMS) as Lt
      by (rewrite length_take; lia).
    rewrite run_canon_full; [|done|by apply Forall_take|done|lia|klia].
    unfold finish_line. cbn [rbind].
    rewrite (clearInput_with_line [] rest w), Lt by constructor.
    do 2 f_equal. lia.
Qed.

(** A line with a token that does not fit among its first [MAX_PARAMS]
    tokens, the ones before it fitting: what [parse] returns. *)
Lemma parse_rejects a w pre t post l rest :
  wf_params a -> spaced (pre ++ t :: post) l -> Forall token (pre ++ t :: post) ->
  length pre < MAX_PARAMS -> Forall short pre -> MAX_PARAM_LENGTH < length t ->
  exists a', wf_params a' /\
    parse a (with_line l rest w)
    = Ok (mkParsed a' (-1)%Z (cout (too_long_msg (length pre)) (set_cin rest w))).
Proof.
  intros Ha Hsp Hts Hpre Hsh Hlen. rewrite (parse_spaced a w _ l rest) by done.
  destruct (clear_rows_Ok MAX_PARAMS 0 a) as (a0 & -> & Ha0); [done|lia|].
  cbn [rbind]. apply Forall_app in Hts as [Hpre_tok Ht].
  inversion_clear Ht as [|? ? [_ Ht'] _].
  rewrite canon_app, run_chars_app, run_canon_lt by (done || lia). cbn [rbind canon].
  rewrite <- !app_assoc.
  destruct (run_long (put_tokens a0 0 pre) (0 + Z.of_nat (length pre))%Z
              (0 + length pre) t ([SPACE] ++ canon post) (with_line [] rest w))
    as (a' & Ha' & ->); [apply put_tokens_wf; (done || lia)|lia|done|done|].
  unfold finish_line. cbn [rbind].
  rewrite (clearInput_with_line [] rest w) by constructor. eauto.
Qed.

(** ** The tokenizer: bounds *)

Lemma parse_safe a w :
  wf_params a -> exists r, parse a w = Ok r /\ wf_params (p_a r).
Proof.
  intros Ha. unfold parse.
  destruct (clear_rows_Ok MAX_PARAMS 0 a) as (a0 & -> & Ha0); [done|lia|].
  cbn [rbind]. apply parse_loop_safe; [by apply pinv_intro; [|klia|klia]|].
  unfold turns_needed, parse_fuel. cbn [ps_charCount].
  destruct (w_cin w); cbn [length]; lia.
Qed.

(** C9. For every input and every array allocated as [main] allocates it,
    [parse] runs to its end without a store outside the array: each store
    of a character or of the terminating NUL goes to a slot below
    [MAX_PARAMS] and an index at most [MAX_PARAM_LENGTH] (see
    [store_in_bounds]: [store] succeeds exactly there), and the array
    keeps its shape. *)
Theorem parse_stores_in_bounds a w :
  wf_params a -> exists r, parse a w = Ok r /\ wf_params (p_a r).
Proof. apply parse_safe. Qed.

Lemma parse_stores_in_bounds_witness :
  wf_params alloc_params /\
  exists r, parse alloc_params (with_line (tok "copy a b") [] quiet_world) = Ok r
            /\ wf_params (p_a r).
Proof.
  split; [exact wf_alloc_params|].
  exact (parse_stores_in_bounds alloc_params _ wf_alloc_params).
Defined.

(** The same holds turn after turn of [main]: its array keeps its shape,
    so no turn stores outside it. *)
Lemma main_turn_safe a w :
  wf_params a ->
  exists a' s w', main_turn a w = Ok (a', s, w') /\ wf_params a'.
Proof.
  intros Ha. unfold main_turn.
  destruct (parse_safe a (cout PROMPT w) Ha) as (r & -> & Hr).
  cbn [rbind]. case_decide; [by eexists _, _, _|].
  destruct (dispatch (p_a r) (p_len r) (p_world r)) as [s w2].
  by eexists _, _, _.
Qed.

Lemma main_loop_no_fault : forall turns a w,
  wf_params a -> main_loop turns a w <> Fault.
Proof.
  induction turns as [|turns IH]; intros a w Ha; cbn [main_loop]; [done|].
  destruct (main_turn_safe a w Ha) as (a' & s & w' & -> & Ha').
  cbn [rbind]. destruct s; [by apply IH|done..].
Qed.

(** ** The tokenizer: a parameter that is too long *)

(** C1, as the code has it. For every input line in which a token longer
    than [MAX_PARAM_LENGTH] is among the first [MAX_PARAMS] tokens and the
    tokens before it fit, [parse] gives up on the line: the rest of the
    line is discarded (the unread input is what follows the newline), the
    count is -1, and the diagnostic names the position of the parameter
    counted from 0 (the number of tokens before it) and the limit. *)
Theorem parse_too_long a w pre t post l rest :
  wf_params a -> spaced (pre ++ t :: post) l -> Forall token (pre ++ t :: post) ->
  length pre < MAX_PARAMS -> Forall short pre -> MAX_PARAM_LENGTH < length t ->
  exists r, parse a (with_line l rest w) = Ok r /\ p_len r = (-1)%Z /\
    p_world r
    = cout ("Parameter " +:+ show_nat (length pre)
            +:+ " exceeds maximum allowed characters: " +:+ show_nat MAX_PARAM_LENGTH
            +:+ "." +:+ endl) (set_cin rest w).
Proof.
  intros Ha Hsp Hts Hpre Hsh Hlen.
  destruct (parse_rejects a w pre t post l rest) as (a' & _ & ->); try done.
  eauto.
Qed.

Lemma parse_too_long_witness :
  exists r,
    parse alloc_params
      (with_line (tok "copy" ++ SPACE :: xs 101 ++ SPACE :: tok "b") (tok "next") quiet_world)
    = Ok r /\ p_len r = (-1)%Z /\
    p_world r
    = cout ("Parameter 1 exceeds maximum allowed characters: 100." +:+ endl)
           (set_cin (tok "next") quiet_world).
Proof.
  apply (parse_too_long alloc_params quiet_world [tok "copy"] (xs 101) [tok "b"]).
  - exact wf_alloc_params.
  - exact (spaced_cons 0 _ _ _ (spaced_cons 0 _ _ _ (spaced_last 0 _))).
  - compute_done.
  - vm_compute; lia.
  - compute_done.
  - vm_compute; lia.
Defined.

(** C1 as stated fails twice over: for a first token of 101 characters the
    diagnostic says "Parameter 0", not "Parameter 1"; and a token of 101
    characters in fifth place raises no error at all, the count is 4 and
    nothing is printed. *)
Lemma parse_too_long_counterexample :
  (exists r,
     parse alloc_params (with_line (xs 101) [] quiet_world) = Ok r /\
     w_cout (p_world r) = "Parameter 0 exceeds maximum allowed characters: 100." +:+ endl /\
     w_cout (p_world r) <> "Parameter 1 exceeds maximum allowed characters: 100." +:+ endl)
  /\
  (exists r,
     parse alloc_params (with_line (tok "a b c d " ++ xs 101) [] quiet_world) = Ok r /\
     p_len r = 4%Z /\ p_len r <> (-1)%Z /\ w_cout (p_world r) = EmptyString).
Proof.
  split; eexists; (split; [vm_compute; reflexivity|]); vm_compute; repeat split; congruence.
Qed.

(** [main] does not dispatch a line that [parse] gave up on. *)
Lemma main_turn_parse_error a w r :
  parse a (cout PROMPT w) = Ok r -> p_len r = (-1)%Z ->
  main_turn a w = Ok (p_a r, Running, p_world r).
Proof.
  intros Hr Hlen. unfold main_turn. rewrite Hr. cbn [rbind].
  by rewrite decide_True.
Qed.

(** C2, as the code has it. For every input line and every token [t] of
    it among the first [MAX_PARAMS], the tokens before it fitting: if [t]
    has at most [MAX_PARAM_LENGTH] characters (exactly [MAX_PARAM_LENGTH]
    included) and so have the tokens after it up to the [MAX_PARAMS]-th,
    the line is accepted, [t] is stored whole and nothing is printed; if
    [t] has more (already [MAX_PARAM_LENGTH + 1]), then whatever the
    tokens after it are, the count is -1 and the turn of [main] ends
    there: nothing is looked up, and all that is printed is the prompt
    and the diagnostic of [parse]. *)
Theorem param_length_boundary a w pre t post l rest :
  wf_params a -> spaced (pre ++ t :: post) l -> Forall token (pre ++ t :: post) ->
  length pre < MAX_PARAMS -> Forall short pre ->
  (length t <= MAX_PARAM_LENGTH ->
   Forall short (take (MAX_PARAMS - S (length pre)) post)) ->
  exists r, parse a (with_line l rest w) = Ok r /\
    if decide (length t <= MAX_PARAM_LENGTH) then
      p_len r = Z.of_nat (length (pre ++ t :: post) `min` MAX_PARAMS) /\
      stored (p_a r) (length pre) (norm (length pre) t) /\
      p_world r = set_cin rest w
    else
      p_len r = (-1)%Z /\
      exists a',
        main_turn a (with_line l rest w)
        = Ok (a', Running,
              cout (too_long_msg (length pre)) (set_cin rest (cout PROMPT w))).
Proof.
  intros Ha Hsp Hts Hpre Hsh Hpost'. case_decide as Ht.
  - pose proof (Hpost' Ht) as Hpost.
    destruct (parse_accepts a w (pre ++ t :: post) l rest) as (a0 & Ha0 & ->);
      try done.
    { rewrite take_app, take_ge by lia.
      replace (MAX_PARAMS - length pre) with (S (MAX_PARAMS - S (length pre))) by lia.
      cbn [take]. apply Forall_app. split; [done|]. by constructor. }
    eexists; split; [done|]. cbn [p_a p_len p_world]. split; [done|]. split; [|done].
    rewrite take_app, take_ge by lia.
    replace (MAX_PARAMS - length pre) with (S (MAX_PARAMS - S (length pre))) by lia.
    cbn [take].
    apply (stored_put_tokens _ a0 0 (length pre) t); [done| | |].
    + rewrite length_app. cbn [length]. rewrite length_take. lia.
    + apply Forall_app. split; [done|]. by constructor.
    + by rewrite list_lookup_middle.
  - destruct (parse_rejects a w pre t post l rest) as (a' & _ & ->);
      try done; [lia|].
    eexists; split; [done|]. split; [done|].
    destruct (parse_rejects a (cout PROMPT w) pre t post l rest) as (a'' & _ & Hp);
      try done; [lia|].
    change (with_line l rest (cout PROMPT w))
      with (cout PROMPT (with_line l rest w)) in Hp.
    exists a''. by rewrite (main_turn_parse_error _ _ _ Hp).
Qed.

Lemma param_length_boundary_witness :
  (exists r,
     parse alloc_params
       (with_line (tok "run" ++ SPACE :: xs 100) (tok "next") quiet_world) = Ok r /\
     p_len r = 2%Z /\ stored (p_a r) 1 (xs 100) /\
     p_world r = set_cin (tok "next") quiet_world)
  /\
  (exists r,
     parse alloc_params
       (with_line (tok "run" ++ SPACE :: xs 101 ++ SPACE :: xs 102) (tok "next")
                  quiet_world) = Ok r /\
     p_len r = (-1)%Z /\
     exists a',
       main_turn alloc_params
         (with_line (tok "run" ++ SPACE :: xs 101 ++ SPACE :: xs 102) (tok "next")
                    quiet_world)
       = Ok (a', Running,
             cout (too_long_msg 1) (set_cin (tok "next") (cout PROMPT quiet_world)))).
Proof.
  split.
  - refine (param_length_boundary alloc_params quiet_world [tok "run"] (xs 100) []
              _ (tok "next") wf_alloc_params
              (spaced_cons 0 _ _ _ (spaced_last 0 _)) _ _ _ _).
    + compute_done.
    + vm_compute; lia.
    + compute_done.
    + intros _. compute_done.
  - refine (param_length_boundary alloc_params quiet_world [tok "run"] (xs 101) [xs 102]
              _ (tok "next") wf_alloc_params
              (spaced_cons 0 _ _ _ (spaced_cons 0 _ _ _ (spaced_last 0 _))) _ _ _ _).
    + compute_done.
    + vm_compute; lia.
    + compute_done.
    + intros H. vm_compute in H. lia.
Defined.

(** C2 as stated fails for a token of [MAX_PARAM_LENGTH + 1] characters in
    fifth place: the count is 4, and [main] looks the command up and
    prints the unrecognized-command message. *)
Lemma param_length_boundary_counterexample :
  (exists r,
     parse alloc_params (with_line (tok "a b c d " ++ xs 101) [] quiet_world) = Ok r /\
     p_len r = 4%Z /\ p_len r <> (-1)%Z)
  /\
  (exists a' w',
     main_turn alloc_params (with_line (tok "a b c d " ++ xs 101) [] quiet_world)
     = Ok (a', Running, w') /\
     w_cout w'
     = PROMPT +:+ "Unrecognized command: " +:+ quote +:+ "a" +:+ quote +:+ "." +:+ endl
       +:+ "Type " +:+ quote +:+ "help" +:+ quote
       +:+ " to view a list of valid commands." +:+ endl).
Proof.
  split.
  - eexists; split; [vm_compute; reflexivity|]. by vm_compute.
  - eexists _, _; split; [vm_compute; reflexivity|]. by vm_compute.
Qed.

(** ** The tokenizer: more tokens than slots *)

(** C3, as the code has it. For every input line with more than
    [MAX_PARAMS] tokens whose first [MAX_PARAMS] tokens each fit in
    [MAX_PARAM_LENGTH] characters, [parse] returns the count [MAX_PARAMS]
    (no error), the slots hold the first [MAX_PARAMS] tokens in order, and
    the rest of the line is discarded without a message: the unread input
    is exactly what follows the newline. Nothing is asked of the tokens
    after the [MAX_PARAMS]-th. *)
Theorem parse_truncates a w ts l rest :
  wf_params a -> spaced ts l -> Forall token ts ->
  MAX_PARAMS < length ts -> Forall short (take MAX_PARAMS ts) ->
  exists r, parse a (with_line l rest w) = Ok r /\
    p_len r = Z.of_nat MAX_PARAMS /\
    (forall i t, i < MAX_PARAMS -> ts !! i = Some t -> stored (p_a r) i (norm i t)) /\
    p_world r = set_cin rest w.
Proof.
  intros Ha Hsp Hts Hlen Hsh.
  destruct (parse_accepts a w ts l rest) as (a0 & Ha0 & ->); try done.
  eexists; split; [done|]. cbn [p_a p_len p_world].
  split; [f_equal; lia|]. split; [|done].
  intros i t Hi Hit.
  apply (stored_put_tokens _ a0 0 i t); [done| |done|].
  - rewrite length_take. lia.
  - by rewrite lookup_take_lt.
Qed.

Lemma parse_truncates_witness :
  exists r,
    parse alloc_params
      (with_line (tok "COPY" ++ SPACE :: tok "A" ++ SPACE :: tok "b" ++ SPACE ::
                  tok "c" ++ SPACE :: tok "d" ++ SPACE :: tok "e")
                 (tok "quit") quiet_world) = Ok r /\
    p_len r = Z.of_nat MAX_PARAMS /\
    (forall i t, i < MAX_PARAMS ->
       [tok "COPY"; tok "A"; tok "b"; tok "c"; tok "d"; tok "e"] !! i = Some t ->
       stored (p_a r) i (norm i t)) /\
    p_world r = set_cin (tok "quit") quiet_world.
Proof.
  refine (parse_truncates alloc_params quiet_world
            [tok "COPY"; tok "A"; tok "b"; tok "c"; tok "d"; tok "e"] _ (tok "quit")
            wf_alloc_params
            (spaced_cons 0 _ _ _ (spaced_cons 0 _ _ _ (spaced_cons 0 _ _ _
              (spaced_cons 0 _ _ _ (spaced_cons 0 _ _ _ (spaced_last 0 _))))))
            _ _ _).
  - compute_done.
  - vm_compute; lia.
  - compute_done.
Defined.

(** C3 as stated fails when one of the first [MAX_PARAMS] tokens is too
    long: the line of six tokens below, the fourth of 101 characters, gives
    the count -1 and the diagnostic for parameter 3, not four tokens. *)
Lemma parse_truncates_counterexample :
  exists r,
    parse alloc_params
      (with_line (tok "a b c " ++ xs 101 ++ tok " e f") (tok "next") quiet_world) = Ok r /\
    p_len r = (-1)%Z /\ p_len r <> Z.of_nat MAX_PARAMS /\
    w_cout (p_world r) = "Parameter 3 exceeds maximum allowed characters: 100." +:+ endl.
Proof.
  eexists; split; [vm_compute; reflexivity|]. by vm_compute.
Qed.

(** ** The tokenizer: spaces *)

(** C7. For every sequence of tokens, any two lines that hold these tokens
    separated by one or more spaces, with any number of spaces before and
    after, give the same result of [parse]: the same array, the same
    count, the same output and the same unread input. A run of spaces
    never adds a token: when the first [MAX_PARAMS] tokens fit, the count
    is the number of tokens (at most [MAX_PARAMS]) and each slot counted
    holds its non-empty token. *)
Theorem spacing_irrelevant a w ts l1 l2 rest :
  Forall token ts -> spaced ts l1 -> spaced ts l2 ->
  parse a (with_line l1 rest w) = parse a (with_line l2 rest w)
  /\ (wf_params a -> Forall short (take MAX_PARAMS ts) ->
      exists r, parse a (with_line l1 rest w) = Ok r /\
        p_len r = Z.of_nat (length ts `min` MAX_PARAMS) /\
        forall i t, i < MAX_PARAMS -> ts !! i = Some t ->
          t <> [] /\ stored (p_a r) i (norm i t)).
Proof.
  intros Hts H1 H2. split.
  - by rewrite !(parse_spaced a w ts).
  - intros Ha Hsh.
    destruct (parse_accepts a w ts l1 rest) as (a0 & Ha0 & ->); try done.
    eexists; split; [done|]. cbn [p_a p_len]. split; [done|].
    intros i t Hi Hit. split.
    + by apply (proj1 (Forall_lookup _ _) Hts) in Hit as [? _].
    + apply (stored_put_tokens _ a0 0 i t); [done| |done|].
      * rewrite length_take. lia.
      * by rewrite lookup_take_lt.
Qed.

Lemma spacing_irrelevant_witness :
  parse alloc_params
    (with_line (replicate 3 SPACE ++ tok "list" ++ SPACE ::
                replicate 3 SPACE ++ tok "." ++ SPACE :: replicate 1 SPACE)
               [] quiet_world)
  = parse alloc_params (with_line (tok "list" ++ SPACE :: tok ".") [] quiet_world)
  /\ exists r,
       parse alloc_params
         (with_line (replicate 3 SPACE ++ tok "list" ++ SPACE ::
                     replicate 3 SPACE ++ tok "." ++ SPACE :: replicate 1 SPACE)
                    [] quiet_world) = Ok r /\
       p_len r = 2%Z /\
       forall i t, i < MAX_PARAMS -> [tok "list"; tok "."] !! i = Some t ->
         t <> [] /\ stored (p_a r) i (norm i t).
Proof.
  assert (Forall token [tok "list"; tok "."]) as Hts by compute_done.
  pose proof (spacing_irrelevant alloc_params quiet_world [tok "list"; tok "."]
                _ _ [] Hts
                (spaced_cons 3 _ _ _ (spaced_cons 3 _ _ _ (spaced_nil 1)))
                (spaced_cons 0 _ _ _ (spaced_last 0 _))) as [Heq Hcount].
  split; [exact Heq|].
  apply Hcount; [exact wf_alloc_params|compute_done].
Defined.



(** ** [copy] *)

Lemma nat_of_ascii_0 c : nat_of_ascii c = 0 -> c = NUL.
Proof.
  intros H. rewrite <- (ascii_nat_embedding c), H. done.
Qed.

Lemma nat_of_ascii_inj c d : nat_of_ascii c = nat_of_ascii d -> c = d.
Proof.
  intros H. by rewrite <- (ascii_nat_embedding c), H, ascii_nat_embedding.
Qed.

(** [strcmp] returns 0 exactly on arrays that hold the same C string. *)
Lemma strcmp_0_iff : forall x y, strcmp x y = 0%Z <-> cstr x = cstr y.
Proof.
  induction x as [|c x IH]; intros [|d y]; cbn [strcmp cstr].
  - done.
  - case_decide as Hd.
    + subst d. done.
    + split; [|done]. intros H. destruct Hd. apply nat_of_ascii_0. lia.
  - case_decide as Hc.
    + subst c. done.
    + split; [|done]. intros H. destruct Hc. apply nat_of_ascii_0. lia.
  - destruct (decide (c = d)) as [->|Hcd].
    + case_decide; [done|]. rewrite IH. split; [by intros ->|by intros [= ?]].
    + split.
      * intros H. destruct Hcd. apply nat_of_ascii_inj. lia.
      * repeat case_decide; subst; try done. by intros [= ? _].
Qed.

Lemma strcmp_params a i j :
  strcmp (arg a i) (arg a j) = 0%Z <-> param a i = param a j.
Proof. apply strcmp_0_iff. Qed.

(** C4. For every call of [copy] with count 3 whose source and destination
    names are the same string, in every world (whether or not a file of
    that name exists), the command only prints "Cannot copy same file!":
    the file system is unchanged and no system call is made, so no file is
    opened, created, read or written. *)
Theorem copy_same_file a w :
  param a 1 = param a 2 ->
  copy_cmd a 3 w = (Running, cout ("Cannot copy same file!" +:+ endl) w)
  /\ w_fs (snd (copy_cmd a 3 w)) = w_fs w
  /\ w_trace (snd (copy_cmd a 3 w)) = w_trace w.
Proof.
  intros Hsame. unfold copy_cmd.
  rewrite decide_False by (by intros []).
  rewrite decide_True by (by apply strcmp_params).
  done.
Qed.

Lemma copy_same_file_witness :
  copy_cmd (sample_params ["copy"; "a.txt"; "a.txt"]) 3 (sample_world "")
  = (Running, cout ("Cannot copy same file!" +:+ endl) (sample_world ""))
  /\ w_fs (snd (copy_cmd (sample_params ["copy"; "a.txt"; "a.txt"]) 3 (sample_world "")))
     = sample_fs
  /\ w_trace (snd (copy_cmd (sample_params ["copy"; "a.txt"; "a.txt"]) 3 (sample_world "")))
     = [].
Proof.
  apply (copy_same_file (sample_params ["copy"; "a.txt"; "a.txt"]) (sample_world "")).
  vm_compute. reflexivity.
Defined.

Lemma ifstream_open_good fileName w :
  opens_for_reading (w_fs w) fileName = true ->
  exists data, ifstream_open fileName w = (Some data, log (EvOpenIn fileName) w).
Proof.
  unfold opens_for_reading, ifstream_open.
  destruct (w_fs w !! fileName) as [[data [|] wr|es]|]; try done; eauto.
Qed.

Lemma copy_cmd_asked a w :
  param a 1 <> param a 2 ->
  opens_for_reading (w_fs w) (param a 1) = true ->
  opens_for_reading (w_fs w) (param a 2) = true ->
  exists data,
    copy_cmd a 3 w
    = if decide (fst (cin_read_string w) <> "y") then
        (Running, cout ("Operation aborted." +:+ endl) (asked a w))
      else
        let '(okOut, w3) := createOutStream (param a 2) (asked a w) in
        if negb okOut then (Running, w3)
        else (Running, copy_chars data (param a 2) w3).
Proof.
  intros Hne Hsrc Hdst. unfold copy_cmd.
  rewrite decide_False by (by intros []).
  rewrite decide_False by (by rewrite strcmp_params).
  unfold createInStream.
  destruct (ifstream_open_good (param a 1) w Hsrc) as (data & ->).
  exists data. cbn [negb]. unfold validateOutFile.
  destruct (ifstream_open_good (param a 2) (log (EvOpenIn (param a 1)) w))
    as (data2 & ->); [done|].
  unfold asked, cin_read_string. cbn [w_cin cout log].
  destruct (read_word (skip_ws (w_cin w))) as [word rest]. cbn [fst snd].
  by case_decide.
Qed.

Lemma asked_frame a w :
  w_fs (asked a w) = w_fs w
  /\ w_trace (asked a w) = w_trace w ++ [EvOpenIn (param a 1); EvOpenIn (param a 2)]
  /\ w_cout (asked a w)
     = ((w_cout w
         +:+ ("File " +:+ quote +:+ param a 2 +:+ quote +:+ " already exists." +:+ endl))
        +:+ ("If you continue, this file will be overwritten." +:+ endl))
       +:+ "Do you wish to continue (y/n)? ".
Proof.
  unfold asked, cin_read_string. cbn [w_cin cout log].
  destruct (read_word (skip_ws (w_cin w))) as [word rest].
  cbn. by rewrite <- app_assoc.
Qed.




(** C8. For every call of [copy] that gets to the overwrite question, the
    operation goes on to open the destination for writing exactly when
    the token read is the string y; with any other token, such as Y, yes
    or n, it takes the abort path: "Operation aborted." is printed and
    nothing more is done. *)
Theorem overwrite_needs_y a w :
  param a 1 <> param a 2 ->
  opens_for_reading (w_fs w) (param a 1) = true ->
  opens_for_reading (w_fs w) (param a 2) = true ->
  exists w', copy_cmd a 3 w = (Running, w') /\
    if decide (fst (cin_read_string w) = "y") then
      exists more,
        w_trace w'
        = w_trace w ++ [EvOpenIn (param a 1); EvOpenIn (param a 2);
                        EvOpenOut (param a 2)] ++ more
    else
      w' = cout ("Operation aborted." +:+ endl) (asked a w) /\
      w_fs w' = w_fs w /\
      w_trace w' = w_trace w ++ [EvOpenIn (param a 1); EvOpenIn (param a 2)].
Proof.
  intros Hne Hsrc Hdst.
  destruct (copy_cmd_asked a w Hne Hsrc Hdst) as (data & ->).
  destruct (asked_frame a w) as (Hfs & Htr & _).
  destruct (decide (fst (cin_read_string w) = "y")) as [Hans|Hans].
  - rewrite decide_False by (by intros []).
    unfold createOutStream, ofstream_open.
    assert (forall cs out w0, w_trace (copy_chars cs out w0) = w_trace w0) as Hcopy.
    { induction cs as [|c cs IH]; intros out w0; cbn [copy_chars]; [done|].
      by rewrite IH. }
    destruct (w_fs (asked a w) !! param a 2) as [[d r [|]|es]|];
      [| | |destruct (w_create_in (asked a w) (param a 2)) as [[dir entry]|]];
      cbn [negb]; eexists; (split; [done|]); exists [];
      rewrite ?Hcopy; cbn [cout log set_fs w_trace]; rewrite Htr;
      by rewrite <- app_assoc.
  - rewrite decide_True by done. eexists; split; [done|].
    cbn [cout w_fs w_trace]. by rewrite Hfs, Htr.
Qed.

Lemma overwrite_needs_y_witness :
  (exists w',
     copy_cmd (sample_params ["copy"; "a.txt"; "b.txt"]) 3 (sample_world "y") = (Running, w') /\
     exists more, w_trace w' = [EvOpenIn "a.txt"; EvOpenIn "b.txt"; EvOpenOut "b.txt"] ++ more)
  /\
  (exists w',
     copy_cmd (sample_params ["copy"; "a.txt"; "b.txt"]) 3 (sample_world "Y") = (Running, w') /\
     w' = cout ("Operation aborted." +:+ endl)
            (asked (sample_params ["copy"; "a.txt"; "b.txt"]) (sample_world "Y")) /\
     w_fs w' = sample_fs /\
     w_trace w' = [EvOpenIn "a.txt"; EvOpenIn "b.txt"])
  /\
  (exists w',
     copy_cmd (sample_params ["copy"; "a.txt"; "b.txt"]) 3 (sample_world "yes") = (Running, w') /\
     w' = cout ("Operation aborted." +:+ endl)
            (asked (sample_params ["copy"; "a.txt"; "b.txt"]) (sample_world "yes")) /\
     w_fs w' = sample_fs /\
     w_trace w' = [EvOpenIn "a.txt"; EvOpenIn "b.txt"])
  /\
  (exists w',
     copy_cmd (sample_params ["copy"; "a.txt"; "b.txt"]) 3 (sample_world "n") = (Running, w') /\
     w' = cout ("Operation aborted." +:+ endl)
            (asked (sample_params ["copy"; "a.txt"; "b.txt"]) (sample_world "n")) /\
     w_fs w' = sample_fs /\
     w_trace w' = [EvOpenIn "a.txt"; EvOpenIn "b.txt"]).
Proof.
  repeat split.
  - refine (overwrite_needs_y (sample_params ["copy"; "a.txt"; "b.txt"])
              (sample_world "y") _ _ _); vm_compute; congruence.
  - refine (overwrite_needs_y (sample_params ["copy"; "a.txt"; "b.txt"])
              (sample_world "Y") _ _ _); vm_compute; congruence.
  - refine (overwrite_needs_y (sample_params ["copy"; "a.txt"; "b.txt"])
              (sample_world "yes") _ _ _); vm_compute; congruence.
  - refine (overwrite_needs_y (sample_params ["copy"; "a.txt"; "b.txt"])
              (sample_world "n") _ _ _); vm_compute; congruence.
Defined.

(** ** [run] *)

(** C6. For every call of [run] with count 2, the first system call is the
    [stat] of the path. If it fails, [run] prints "Unable to find
    executable file" with the path in quotes and returns: no fork, no
    other system call, nothing else changed. If it succeeds, the next
    system call is the fork; so a fork is attempted exactly when the
    check succeeded, and after it. *)
Theorem run_checks_before_fork a w :
  exists s w', run_cmd a 2 w = (s, w') /\
    if decide (is_Some (w_fs w !! param a 1)) then
      exists more, w_trace w' = w_trace w ++ EvStat (param a 1) :: EvFork :: more
    else
      s = Running /\
      w_trace w' = w_trace w ++ [EvStat (param a 1)] /\
      w_fs w' = w_fs w /\
      w_cout w'
      = w_cout w +:+ ("Unable to find executable file " +:+ quote +:+ param a 1
                      +:+ quote +:+ "." +:+ endl).
Proof.
  unfold run_cmd. rewrite decide_False by (by intros []).
  unfold fileExists.
  destruct (decide (is_Some (w_fs w !! param a 1))) as [Hex|Hex].
  - rewrite bool_decide_eq_true_2 by done.
    cbn [negb log w_fork w_exec_ok w_child w_cin w_fs].
    destruct (decide (w_fork w = (-1)%Z));
      [|destruct (decide (w_fork w <> 0%Z));
        [destruct (w_child w _ _ _) as [[cin' out] fs']|destruct (w_exec_ok w)]];
      eexists _, _; (split; [done|]); cbn [cout log set_fs set_cin w_trace];
      rewrite <- ?app_assoc; cbn [app]; eauto.
  - rewrite bool_decide_eq_false_2 by done. cbn [negb].
    eexists _, _; split; [done|]. done.
Qed.

(** * Further properties of the code *)

(** ** Characters and C strings *)

Lemma tolower_idem c : tolower (tolower c) = tolower c.
Proof. by destruct c as [[] [] [] [] [] [] [] []]. Qed.

Lemma tolower_token_char c : token_char c -> token_char (tolower c).
Proof. destruct c as [[] [] [] [] [] [] [] []]; intros [? ?]; by split. Qed.

Lemma tolower_not_NUL c : c <> NUL -> tolower c <> NUL.
Proof. by destruct c as [[] [] [] [] [] [] [] []]. Qed.

Lemma token_lower t : token t -> token (map tolower t).
Proof.
  intros [Hne Ht]. split; [by destruct t|].
  apply Forall_map. eapply Forall_impl; [done|]. apply tolower_token_char.
Qed.

Lemma cstr_app_NUL t more :
  Forall (fun c => c <> NUL) t -> cstr (t ++ NUL :: more) = string_of_list_ascii t.
Proof.
  induction 1 as [|c t Hc _ IH]; cbn [app cstr string_of_list_ascii].
  - by rewrite decide_True.
  - rewrite decide_False by done. by rewrite IH.
Qed.

Lemma param_arg a i : param a i = cstr (arg a i).
Proof. done. Qed.

(** A slot that holds a token without NUL reads as that token. *)
Lemma stored_param a i t :
  stored a i t -> Forall (fun c => c <> NUL) t -> param a i = string_of_list_ascii t.
Proof.
  rewrite param_arg. unfold stored. intros Hst Ht.
  rewrite <- (take_drop (S (length t)) (arg a i)), Hst, <- app_assoc.
  by apply cstr_app_NUL.
Qed.

Lemma norm_not_NUL i t :
  Forall (fun c => c <> NUL) t -> Forall (fun c => c <> NUL) (norm i t).
Proof.
  intros Ht. unfold norm. case_decide; [|done].
  apply Forall_map. eapply Forall_impl; [done|]. apply tolower_not_NUL.
Qed.

(** ** What the clearing loops leave *)

Lemma clear_cells_spec i : forall k j a,
  wf_params a -> i < MAX_PARAMS -> j + k <= MAX_PARAM_LENGTH ->
  clear_cells i j k a
  = Ok (<[i := take j (arg a i) ++ replicate k NUL ++ drop (j + k) (arg a i)]> a).
Proof.
  induction k as [|k IH]; intros j a Ha Hi Hj; cbn [clear_cells replicate app].
  - rewrite Nat.add_0_r, take_drop, list_insert_id; [done|].
    apply arg_lookup. by destruct Ha as [-> _].
  - pose proof (wf_arg_length a i Ha Hi) as Lrow.
    assert (i < length a) as Hia by (by destruct Ha as [-> _]).
    rewrite store_Ok by (done || lia). cbn [rbind].
    rewrite IH; [|by (eapply store_wf; [done|]; apply store_Ok; (done || lia))
                 |done|lia].
    rewrite arg_insert_eq by done. rewrite list_insert_insert_eq.
    rewrite (take_S_r _ _ NUL) by (apply list_lookup_insert_eq; lia).
    rewrite take_insert_ge by lia. rewrite drop_insert_lt by lia.
    rewrite <- app_assoc. cbn [app].
    by replace (j + S k) with (S j + k) by lia.
Qed.

Lemma clear_rows_spec : forall k i a,
  wf_params a -> i + k <= MAX_PARAMS ->
  exists a', clear_rows i k a = Ok a' /\ wf_params a' /\
    forall j, arg a' j
              = if decide (i <= j < i + k) then cleared_row (arg a j) else arg a j.
Proof.
  induction k as [|k IH]; intros i a Ha Hi; cbn [clear_rows].
  - exists a. split; [done|]. split; [done|]. intros j.
    rewrite decide_False by lia. done.
  - pose proof (wf_arg_length a i Ha ltac:(lia)) as Lrow.
    rewrite clear_cells_spec by (done || lia). cbn [rbind].
    rewrite take_0. cbn [app Nat.add]. fold (cleared_row (arg a i)).
    assert (wf_params (<[i := cleared_row (arg a i)]> a)) as Ha1.
    { apply wf_insert; [done|]. unfold cleared_row.
      rewrite length_app, length_replicate, length_drop. lia. }
    destruct (IH (S i) _ Ha1 ltac:(lia)) as (a' & -> & Ha' & Harg).
    exists a'. split; [done|]. split; [done|]. intros j. rewrite Harg.
    assert (i < length a) as Hia by (destruct Ha as [-> _]; lia).
    destruct (decide (j = i)) as [->|Hji].
    + rewrite decide_False by lia. rewrite decide_True by lia.
      by rewrite arg_insert_eq.
    + rewrite arg_insert_ne by done.
      destruct (decide (S i <= j < S i + k)).
      * by rewrite decide_True by lia.
      * by rewrite decide_False by lia.
Qed.

Lemma cstr_cleared_row row : cstr (cleared_row row) = EmptyString.
Proof. unfold cleared_row, MAX_PARAM_LENGTH. cbn. done. Qed.

Lemma put_tokens_above : forall ts a p j,
  p + length ts <= j -> arg (put_tokens a p ts) j = arg a j.
Proof.
  induction ts as [|t ts IH]; intros a p j Hj; cbn [put_tokens length] in *; [done|].
  rewrite IH by lia. apply put_token_arg_ne. lia.
Qed.

(** [parse_accepts] with what the slots held before the tokens went in. *)
Lemma parse_accepts_cleared a w ts l rest :
  wf_params a -> spaced ts l -> Forall token ts ->
  Forall short (take MAX_PARAMS ts) ->
  exists a0, wf_params a0 /\
    (forall j, j < MAX_PARAMS -> arg a0 j = cleared_row (arg a j)) /\
    parse a (with_line l rest w)
    = Ok (mkParsed (put_tokens a0 0 (take MAX_PARAMS ts))
                   (Z.of_nat (length ts `min` MAX_PARAMS)) (set_cin rest w)).
Proof.
  intros Ha Hsp Hts Hsh.
  destruct (parse_accepts a w ts l rest Ha Hsp Hts Hsh) as (a0' & _ & Hp).
  destruct (clear_rows_spec MAX_PARAMS 0 a Ha ltac:(lia)) as (a0 & Hc & Ha0 & Harg).
  exists a0. split; [done|]. split.
  { intros j Hj. rewrite Harg. by rewrite decide_True by lia. }
  rewrite (parse_spaced a w ts l rest) in Hp |- * by done.
  rewrite Hc. cbn [rbind].
  destruct (decide (length ts < MAX_PARAMS)) as [Hlt|Hge].
  - rewrite take_ge in Hsh |- * by lia.
    rewrite run_canon_lt by (done || lia).
    unfold finish_line, parse_finish. cbn.
    do 2 f_equal. lia.
  - rewrite <- (take_drop MAX_PARAMS ts) at 1. rewrite canon_app.
    assert (length (take MAX_PARAMS ts) = MAX_PARAMS) as Lt
      by (rewrite length_take; lia).
    rewrite run_canon_full; [|done|by apply Forall_take|done|lia|klia].
    unfold finish_line. cbn [rbind].
    rewrite (clearInput_with_line [] rest w), Lt by constructor.
    do 2 f_equal. lia.
Qed.

(** ** The tokenizer: what a caller reads back *)

(** X1. A line of spaces only (the empty line included) gives the count 0
    and leaves every slot reading as the empty string, whatever the array
    held from the line before; nothing is printed and the unread input is
    what follows the newline. *)
Theorem parse_blank_line a w n rest :
  wf_params a ->
  exists r, parse a (with_line (replicate n SPACE) rest w) = Ok r /\
    p_len r = 0%Z /\
    (forall i, param (p_a r) i = EmptyString) /\
    p_world r = set_cin rest w.
Proof.
  intros Ha.
  destruct (parse_accepts_cleared a w [] (replicate n SPACE) rest Ha (spaced_nil n))
    as (a0 & Ha0 & Harg & ->); [constructor|constructor|].
  eexists; split; [done|]. cbn [p_a p_len p_world]. rewrite take_nil.
  cbn [put_tokens]. split; [done|]. split; [|done]. intros i. rewrite param_arg.
  destruct (decide (i < MAX_PARAMS)) as [Hi|Hi].
  - rewrite Harg by done. apply cstr_cleared_row.
  - destruct Ha0 as [La0 _]. unfold arg.
    rewrite lookup_ge_None_2 by lia. done.
Qed.

Lemma parse_blank_line_witness :
  exists r,
    parse (sample_params ["copy"; "a.txt"; "b.txt"])
          (with_line (replicate 3 SPACE) (tok "quit") quiet_world) = Ok r /\
    p_len r = 0%Z /\
    (forall i, param (p_a r) i = EmptyString) /\
    p_world r = set_cin (tok "quit") quiet_world.
Proof.
  apply (parse_blank_line (sample_params ["copy"; "a.txt"; "b.txt"])).
  apply put_tokens_wf; [exact wf_alloc_params|vm_compute; lia|compute_done].
Defined.

Lemma parse_reads_tokens a w ts l rest :
  wf_params a -> spaced ts l -> Forall token ts ->
  Forall short (take MAX_PARAMS ts) ->
  Forall (Forall (fun c => c <> NUL)) (take MAX_PARAMS ts) ->
  exists r, parse a (with_line l rest w) = Ok r /\
    p_len r = Z.of_nat (length ts `min` MAX_PARAMS) /\
    p_world r = set_cin rest w /\
    forall i, i < MAX_PARAMS ->
      param (p_a r) i
      = match ts !! i with
        | Some t => string_of_list_ascii (norm i t)
        | None => EmptyString
        end.
Proof.
  intros Ha Hsp Hts Hsh Hnul.
  destruct (parse_accepts_cleared a w ts l rest Ha Hsp Hts Hsh)
    as (a0 & Ha0 & Harg & ->).
  eexists; split; [done|]. cbn [p_a p_len p_world]. split; [done|]. split; [done|].
  intros i Hi. destruct (ts !! i) as [t|] eqn:Hit.
  - assert (take MAX_PARAMS ts !! i = Some t) as Hit' by (by rewrite lookup_take_lt).
    apply (stored_param _ i (norm i t)).
    + apply (stored_put_tokens _ a0 0 i t); [done| |done|done].
      rewrite length_take. lia.
    + apply norm_not_NUL. by eapply (proj1 (Forall_lookup _ _) Hnul).
  - apply lookup_ge_None in Hit. rewrite param_arg.
    rewrite put_tokens_above by (rewrite length_take; lia).
    rewrite Harg by done. apply cstr_cleared_row.
Qed.

(** X2. For a line whose first [MAX_PARAMS] tokens fit and hold no NUL
    character, the C strings a handler reads from the slots are exactly
    these tokens, the first one lowercased and the others as typed; the
    slots past the count read as the empty string. What the array held
    before the call does not show. *)
Theorem parse_params_are_tokens a w ts l rest :
  wf_params a -> spaced ts l -> Forall token ts ->
  Forall short (take MAX_PARAMS ts) ->
  Forall (Forall (fun c => c <> NUL)) (take MAX_PARAMS ts) ->
  exists r, parse a (with_line l rest w) = Ok r /\
    p_len r = Z.of_nat (length ts `min` MAX_PARAMS) /\
    forall i, i < MAX_PARAMS ->
      param (p_a r) i
      = match ts !! i with
        | Some t => string_of_list_ascii (if decide (i = 0) then map tolower t else t)
        | None => EmptyString
        end.
Proof.
  intros Ha Hsp Hts Hsh Hnul.
  destruct (parse_reads_tokens a w ts l rest Ha Hsp Hts Hsh Hnul)
    as (r & Hr & Hlen & _ & Hpar).
  exists r. split; [done|]. split; [done|]. exact Hpar.
Qed.

Lemma parse_params_are_tokens_witness :
  exists r,
    parse (sample_params ["copy"; "a.txt"; "b.txt"; "junk"])
          (with_line (replicate 2 SPACE ++ tok "LiSt" ++ SPACE :: replicate 1 SPACE
                      ++ tok "Docs" ++ SPACE :: replicate 0 SPACE)
                     [] quiet_world) = Ok r /\
    p_len r = 2%Z /\
    forall i, i < MAX_PARAMS ->
      param (p_a r) i
      = match [tok "LiSt"; tok "Docs"] !! i with
        | Some t => string_of_list_ascii (if decide (i = 0) then map tolower t else t)
        | None => EmptyString
        end.
Proof.
  refine (parse_params_are_tokens (sample_params ["copy"; "a.txt"; "b.txt"; "junk"])
            quiet_world [tok "LiSt"; tok "Docs"] _ [] _
            (spaced_cons 2 _ _ _ (spaced_cons 1 _ _ _ (spaced_nil 0))) _ _ _).
  - apply put_tokens_wf; [exact wf_alloc_params|vm_compute; lia|compute_done].
  - compute_done.
  - compute_done.
  - compute_done.
Defined.

Lemma parse_body_lower st c w :
  ps_paramCount st = 0 -> token_char c ->
  parse_body st (tolower c) w = parse_body st c w.
Proof.
  intros Hp Hc. pose proof (tolower_token_char c Hc) as [Hl _]. destruct Hc as [Hc _].
  unfold parse_body. rewrite !(decide_False (P := _ = SPACE)) by done.
  rewrite !(decide_True (P := ps_paramCount st = 0)) by done.
  by rewrite tolower_idem.
Qed.

Lemma parse_body_same_slot st c w st' w' :
  c <> SPACE -> parse_body st c w = Ok (Next st' w') ->
  ps_paramCount st' = ps_paramCount st.
Proof.
  intros Hc. unfold parse_body. rewrite decide_False by done.
  destruct (store _ _ _ _) as [a'| |]; cbn [rbind]; try done.
  case_decide; [done|]. by intros [= <- _].
Qed.

Lemma run_chars_lower w : forall t st,
  ps_paramCount st = 0 -> Forall token_char t ->
  run_chars (map tolower t) st w = run_chars t st w.
Proof.
  induction t as [|c t IH]; intros st Hp Ht; cbn [map run_chars]; [done|].
  inversion_clear Ht as [|? ? Hc Ht']. rewrite parse_body_lower by done.
  destruct (parse_body st c w) as [[st' w'|r]| |] eqn:E; cbn [rbind]; try done.
  apply IH; [|done]. destruct Hc as [Hc _].
  by rewrite (parse_body_same_slot st c w st' w' Hc E).
Qed.

(** X3. The command name is read without regard to case: two lines whose
    first tokens differ only in the case of their letters, and whose other
    tokens are the same, give the same result of [parse], whatever the
    spacing and the lengths. *)
Theorem parse_command_case a w t1 t2 ts l1 l2 rest :
  token t1 -> token t2 -> Forall token ts ->
  map tolower t1 = map tolower t2 ->
  spaced (t1 :: ts) l1 -> spaced (t2 :: ts) l2 ->
  parse a (with_line l1 rest w) = parse a (with_line l2 rest w).
Proof.
  intros Ht1 Ht2 Hts Hcase H1 H2.
  rewrite (parse_spaced a w (t1 :: ts) l1), (parse_spaced a w (t2 :: ts) l2)
    by (done || by constructor).
  destruct (clear_rows 0 MAX_PARAMS a) as [a0| |]; cbn [rbind]; try done.
  cbn [canon]. rewrite <- !app_assoc, !(run_chars_app t1), !(run_chars_app t2).
  rewrite <- (run_chars_lower _ t1), <- (run_chars_lower _ t2), Hcase;
    [done|done|by destruct Ht2|done|by destruct Ht1].
Qed.

Lemma parse_command_case_witness :
  parse alloc_params
    (with_line (tok "QuIt" ++ SPACE :: tok "Now") [] quiet_world)
  = parse alloc_params
      (with_line (replicate 2 SPACE ++ tok "quit" ++ SPACE :: replicate 1 SPACE ++ tok "Now")
                 [] quiet_world).
Proof.
  refine (parse_command_case alloc_params quiet_world (tok "QuIt") (tok "quit")
            [tok "Now"] _ _ [] _ _ _ _
            (spaced_cons 0 _ _ _ (spaced_last 0 _))
            (spaced_cons 2 _ _ _ (spaced_last 1 _))); compute_done.
Defined.

(** ** The tokenizer: the count, and the end of the input *)

Lemma ignore_line_no_nl s : Forall (fun c => c <> nl) s -> ignore_line s = [].
Proof.
  induction 1 as [|c s Hc _ IH]; cbn [ignore_line]; [done|].
  by rewrite decide_False.
Qed.

Lemma parse_body_range st c w :
  pinv st -> ps_len st = Z.of_nat (ps_paramCount st) ->
  exists fl, parse_body st c w = Ok fl /\
    match fl with
    | Next st' w' =>
        pinv st' /\ ps_len st' = Z.of_nat (ps_paramCount st') /\ w' = w /\
        (c <> SPACE -> ps_charCount st' = S (ps_charCount st))
    | Return r =>
        (p_len r = (-1)%Z \/ p_len r = Z.of_nat MAX_PARAMS) /\
        w_cin (p_world r) = ignore_line (w_cin w)
    end.
Proof.
  intros Hinv Hlen. pose proof Hinv as (Ha & Hp & Hc). unfold parse_body.
  assert (forall v, wf_params (<[ps_paramCount st := <[ps_charCount st := v]>
            (arg (ps_a st) (ps_paramCount st))]> (ps_a st))) as Hwf.
  { intros v. eapply store_wf; [done|]. by apply store_Ok. }
  case_decide as Hsp.
  - case_decide as Hcc.
    + rewrite store_Ok by done. cbn [rbind].
      case_decide; eexists; (split; [done|]); cbn.
      * split; [right; klia|done].
      * split; [apply pinv_intro; [done|klia|klia]|].
        split; [lia|]. split; [done|]. intros; congruence.
    + eexists; split; [done|]. split; [done|]. split; [done|]. split; [done|].
      intros; congruence.
  - rewrite store_Ok by done. cbn [rbind].
    case_decide; eexists; (split; [done|]); cbn.
    + split; [by left|done].
    + split; [apply pinv_intro; [done|klia|klia]|]. by split.
Qed.

Lemma parse_loop_range : forall fuel st w,
  pinv st -> ps_len st = Z.of_nat (ps_paramCount st) -> turns_needed st w <= fuel ->
  exists r, parse_loop fuel st w = Ok r /\
    (-1 <= p_len r <= Z.of_nat MAX_PARAMS)%Z /\
    (Forall (fun c => c <> nl) (w_cin w) ->
     (p_len r = (-1)%Z \/ p_len r = Z.of_nat MAX_PARAMS) /\ w_cin (p_world r) = []).
Proof.
  induction fuel as [|fuel IH]; intros st w Hinv Hlen Hfuel.
  - unfold turns_needed, MAX_PARAM_LENGTH in Hfuel.
    destruct Hinv as (_ & _ & Hc). unfold MAX_PARAM_LENGTH in Hc.
    destruct (w_cin w); simpl in Hfuel; lia.
  - cbn [parse_loop]. unfold cin_get. destruct (w_cin w) as [|c s] eqn:Ecin.
    + rewrite decide_False by apply nl_not_EOF.
      destruct (parse_body_range st EOF_char w Hinv Hlen) as (fl & -> & Hfl).
      cbn [rbind]. destruct fl as [st' w'|r].
      * destruct Hfl as (Hinv' & Hlen' & -> & Hcc).
        destruct (IH st' w Hinv' Hlen') as (r & Hr & Hrange & Heof).
        { unfold turns_needed in *. rewrite Ecin in *. rewrite Hcc by done. lia. }
        exists r. split; [done|]. split; [done|]. intros _. apply Heof.
        rewrite Ecin. constructor.
      * destruct Hfl as (Hl & Hcin). rewrite Ecin in Hcin. cbn in Hcin.
        exists r. split; [done|]. split; [|done]. destruct Hl as [-> | ->]; klia.
    + destruct (decide (c = nl)) as [->|Hc].
      * unfold parse_finish. destruct Hinv as (Ha & Hp & Hcc).
        case_decide.
        -- rewrite store_Ok by done. cbn [rbind]. eexists; split; [done|].
           cbn [p_len]. split; [klia|]. intros Hnl. by inversion Hnl.
        -- eexists; split; [done|]. cbn [p_len]. split; [klia|].
           intros Hnl. by inversion Hnl.
      * destruct (parse_body_range st c (set_cin s w) Hinv Hlen) as (fl & -> & Hfl).
        cbn [rbind]. destruct fl as [st' w'|r].
        -- destruct Hfl as (Hinv' & Hlen' & -> & Hcc).
           destruct (IH st' (set_cin s w) Hinv' Hlen') as (r & Hr & Hrange & Heof).
           { unfold turns_needed in *. rewrite Ecin in Hfuel. cbn [w_cin set_cin] in *.
             destruct Hinv' as (_ & _ & Hc'). destruct s; cbn [length] in *; lia. }
           exists r. split; [done|]. split; [done|]. intros Hnl. apply Heof.
           cbn [w_cin set_cin]. by inversion Hnl.
        -- destruct Hfl as (Hl & Hcin). cbn [w_cin set_cin] in Hcin.
           exists r. split; [done|]. split; [destruct Hl as [-> | ->]; klia|].
           intros Hnl. split; [done|]. rewrite Hcin. apply ignore_line_no_nl.
           by inversion Hnl.
Qed.

Lemma parse_range_aux a w :
  wf_params a ->
  exists r, parse a w = Ok r /\
    (-1 <= p_len r <= Z.of_nat MAX_PARAMS)%Z /\
    (Forall (fun c => c <> nl) (w_cin w) ->
     (p_len r = (-1)%Z \/ p_len r = Z.of_nat MAX_PARAMS) /\ w_cin (p_world r) = []).
Proof.
  intros Ha. unfold parse.
  destruct (clear_rows_Ok MAX_PARAMS 0 a) as (a0 & -> & Ha0); [done|lia|].
  cbn [rbind]. apply parse_loop_range; [by apply pinv_intro; [|klia|klia]|done|].
  unfold turns_needed, parse_fuel. cbn [ps_charCount].
  destruct (w_cin w); cbn [length]; lia.
Qed.

(** X4. Whatever the input, the count that [parse] hands to the dispatcher
    is -1 or a number from 0 to [MAX_PARAMS]: a handler never sees a count
    beyond the slots of the array. *)
Theorem parse_count_range a w :
  wf_params a ->
  exists r, parse a w = Ok r /\ (-1 <= p_len r <= Z.of_nat MAX_PARAMS)%Z.
Proof.
  intros Ha. destruct (parse_range_aux a w Ha) as (r & Hr & Hrange & _). eauto.
Qed.

Lemma parse_count_range_witness :
  exists r,
    parse alloc_params (with_line (tok "a b c d e f g") [] quiet_world) = Ok r /\
    (-1 <= p_len r <= Z.of_nat MAX_PARAMS)%Z.
Proof. exact (parse_count_range alloc_params _ wf_alloc_params). Defined.

Lemma parse_body_next_cc st c w st' w' :
  ps_charCount st <= MAX_PARAM_LENGTH -> parse_body st c w = Ok (Next st' w') ->
  ps_charCount st' <= MAX_PARAM_LENGTH /\
  (c <> SPACE -> ps_charCount st' = S (ps_charCount st)).
Proof.
  intros Hcc. unfold parse_body. case_decide as Hsp.
  - case_decide.
    + destruct (store _ _ _ _) as [a'| |]; cbn [rbind]; try done.
      case_decide; [done|]. intros [= <- _]. cbn. split; [lia|done].
    + intros [= <- _]. done.
  - destruct (store _ _ _ _) as [a'| |]; cbn [rbind]; try done.
    case_decide; [done|]. intros [= <- _]. cbn. split; [lia|done].
Qed.

(** At the end of the input the loop goes on as over characters of value
    255, until the parameter overflows. *)
Lemma parse_loop_at_eof w w0 w1 : forall n fuel st,
  w_cin w = [] -> clearInput w = clearInput w0 ->
  ps_charCount st <= MAX_PARAM_LENGTH ->
  MAX_PARAM_LENGTH + 1 <= ps_charCount st + n -> n <= fuel ->
  parse_loop fuel st w = finish_line (run_chars (replicate n EOF_char) st w0) w1.
Proof.
  induction n as [|n IH]; intros fuel st Hcin Hclr Hcc Hn Hfuel; [lia|].
  destruct fuel as [|fuel]; [lia|].
  cbn [parse_loop replicate run_chars]. unfold cin_get. rewrite Hcin.
  rewrite (decide_False (P := EOF_char = nl)) by apply nl_not_EOF.
  rewrite (parse_body_cin st EOF_char w w0 Hclr).
  destruct (parse_body st EOF_char w0) as [[st' w'|r]| |] eqn:E;
    cbn [rbind retarget finish_line]; try done.
  destruct (parse_body_next_cc _ _ _ _ _ Hcc E) as [Hcc' Hs].
  apply IH; [done|done|done| |lia]. rewrite Hs by done. lia.
Qed.

Lemma parse_loop_to_eof w : forall s fuel st,
  Forall (fun c => c <> nl) s -> ps_charCount st <= MAX_PARAM_LENGTH ->
  length s + MAX_PARAM_LENGTH + 1 <= fuel ->
  parse_loop fuel st (set_cin s w)
  = finish_line
      (run_chars (s ++ replicate (MAX_PARAM_LENGTH + 1) EOF_char) st (with_line [] [] w))
      (set_cin [] w).
Proof.
  pose proof (clearInput_with_line [] [] w (List.Forall_nil _)) as Hw0.
  set (w0 := with_line [] [] w) in *.
  induction s as [|c s IH]; intros fuel st Hs Hcc Hfuel.
  - cbn [app length] in *.
    apply parse_loop_at_eof; [done|by rewrite Hw0|done|lia|lia].
  - inversion_clear Hs as [|? ? Hc Hs']. cbn [length] in Hfuel.
    destruct fuel as [|fuel]; [lia|].
    cbn [parse_loop app run_chars]. unfold cin_get. cbn [w_cin set_cin].
    rewrite decide_False by done.
    change (set_cin s (set_cin (c :: s) w)) with (set_cin s w).
    rewrite (parse_body_cin st c (set_cin s w) w0).
    2:{ rewrite Hw0. unfold clearInput. cbn [w_cin set_cin].
        by rewrite ignore_line_no_nl. }
    destruct (parse_body st c w0) as [[st' w'|r]| |] eqn:E;
      cbn [rbind retarget finish_line]; try done.
    destruct (parse_body_next_cc _ _ _ _ _ Hcc E) as [Hcc' _].
    apply IH; [done|done|lia].
Qed.

(** X5. When the input ends before any newline, [parse] returns what it
    returns on the same characters completed by [MAX_PARAM_LENGTH + 1]
    characters of value 255 (the end-of-input value of [cin.get()] held
    in a [char]) and a newline. So it does return, with the count -1 or
    [MAX_PARAMS] and all the input read. *)
Theorem parse_end_of_input a w s :
  Forall (fun c => c <> nl) s ->
  parse a (set_cin s w)
  = parse a (with_line (s ++ replicate (MAX_PARAM_LENGTH + 1) EOF_char) [] w)
  /\ (wf_params a ->
      exists r, parse a (set_cin s w) = Ok r /\
        (p_len r = (-1)%Z \/ p_len r = Z.of_nat MAX_PARAMS) /\
        w_cin (p_world r) = []).
Proof.
  intros Hs. split.
  - unfold parse.
    destruct (clear_rows 0 MAX_PARAMS a) as [a0| |]; cbn [rbind]; try done.
    rewrite parse_loop_to_eof;
      [|done|cbn; lia|unfold parse_fuel; cbn [w_cin set_cin]; lia].
    rewrite parse_loop_line; [done| |].
    + apply Forall_app. split; [done|]. by apply Forall_replicate.
    + unfold parse_fuel, with_line. cbn [w_cin set_cin]. rewrite !length_app. lia.
  - intros Ha. destruct (parse_range_aux a (set_cin s w) Ha) as (r & Hr & _ & Heof).
    exists r. split; [done|]. by apply Heof.
Qed.

Lemma parse_end_of_input_witness :
  parse alloc_params (set_cin (tok "quit") quiet_world)
  = parse alloc_params
      (with_line (tok "quit" ++ replicate (MAX_PARAM_LENGTH + 1) EOF_char) [] quiet_world)
  /\ exists r,
       parse alloc_params (set_cin (tok "quit") quiet_world) = Ok r /\
       (p_len r = (-1)%Z \/ p_len r = Z.of_nat MAX_PARAMS) /\
       w_cin (p_world r) = [].
Proof.
  assert (Forall (fun c => c <> nl) (tok "quit")) as Hs by compute_done.
  destruct (parse_end_of_input alloc_params quiet_world (tok "quit") Hs) as [Heq Hr].
  split; [exact Heq|]. exact (Hr wf_alloc_params).
Defined.

(** ** The main loop *)

(** X6. However many lines [main] handles and whatever they are, no store
    of the tokenizer ever leaves the array allocated at start. *)
Theorem main_no_fault turns w : main turns w <> Fault.
Proof. apply main_loop_no_fault, wf_alloc_params. Qed.

Lemma parse_loop_eof : forall fuel st w,
  w_cin w = [] -> pinv st -> MAX_PARAM_LENGTH + 2 - ps_charCount st <= fuel ->
  exists a', wf_params a' /\
    parse_loop fuel st w
    = Ok (mkParsed a' (-1)%Z (cout (too_long_msg (ps_paramCount st)) (clearInput w))).
Proof.
  induction fuel as [|fuel IH]; intros st w Hcin Hinv Hfuel.
  - destruct Hinv as (_ & _ & Hc). klia.
  - cbn [parse_loop]. unfold cin_get. rewrite Hcin.
    rewrite (decide_False (P := EOF_char = nl)) by apply nl_not_EOF.
    pose proof Hinv as (Ha & Hp & Hc). unfold parse_body.
    rewrite (decide_False (P := EOF_char = SPACE)) by done.
    set (v := if decide (ps_paramCount st = 0) then tolower EOF_char else EOF_char).
    rewrite store_Ok by done. cbn [rbind].
    assert (wf_params (<[ps_paramCount st := <[ps_charCount st := v]>
              (arg (ps_a st) (ps_paramCount st))]> (ps_a st))) as Ha1
      by (eapply store_wf; [exact Ha|]; by apply store_Ok).
    destruct (decide (MAX_PARAM_LENGTH < S (ps_charCount st))) as [Hover|Hover];
      cbn [rbind].
    + eauto.
    + destruct (IH (mkPstate
                      (<[ps_paramCount st := <[ps_charCount st := v]>
                           (arg (ps_a st) (ps_paramCount st))]> (ps_a st))
                      (ps_len st) (ps_paramCount st) (S (ps_charCount st)))
                  w Hcin) as (a' & Ha' & ->);
        [apply pinv_intro; (done || lia)|cbn [ps_charCount]; lia|].
      eauto.
Qed.

Lemma main_turn_eof a w :
  wf_params a -> w_cin w = [] ->
  exists a' w', main_turn a w = Ok (a', Running, w') /\ wf_params a' /\ w_cin w' = [] /\
    w_cout w' = (w_cout w +:+ PROMPT) +:+ too_long_msg 0.
Proof.
  intros Ha Hcin. unfold main_turn, parse.
  destruct (clear_rows_Ok MAX_PARAMS 0 a) as (a0 & -> & Ha0); [done|lia|].
  cbn [rbind].
  destruct (parse_loop_eof (parse_fuel (cout PROMPT w)) (mkPstate a0 0%Z 0 0)
              (cout PROMPT w)) as (a' & Ha' & ->).
  - done.
  - by apply pinv_intro; [|klia|klia].
  - unfold parse_fuel. cbn [ps_charCount w_cin cout]. rewrite Hcin. cbn [length]. lia.
  - cbn [rbind p_len]. rewrite decide_True by done.
    eexists _, _; split; [done|]. split; [done|].
    cbn [p_world cout clearInput set_cin w_cin w_cout]. by rewrite Hcin.
Qed.

(** X7. At the end of the input the interpreter does not stop: a turn
    prints the prompt and "Parameter 0 exceeds maximum allowed characters:
    100.", reads nothing and leaves the loop running, so no number of
    turns ends [main]. *)
Theorem main_spins_at_end_of_input w :
  w_cin w = [] ->
  (exists a' w',
     main_turn alloc_params w = Ok (a', Running, w') /\ w_cin w' = [] /\
     w_cout w'
     = (w_cout w +:+ PROMPT)
       +:+ ("Parameter 0 exceeds maximum allowed characters: 100." +:+ endl))
  /\ forall turns, main turns w = Timeout.
Proof.
  intros Hcin. split.
  - destruct (main_turn_eof alloc_params w wf_alloc_params Hcin)
      as (a' & w' & Ht & _ & Hcin' & Hout).
    exists a', w'. split; [exact Ht|]. split; [exact Hcin'|]. exact Hout.
  - intros turns. unfold main. generalize wf_alloc_params. generalize alloc_params.
    revert w Hcin. induction turns as [|turns IH]; intros w Hcin a Ha; [done|].
    cbn [main_loop].
    destruct (main_turn_eof a w Ha Hcin) as (a' & w' & -> & Ha' & Hcin' & _).
    cbn [rbind]. by apply IH.
Qed.

Lemma main_spins_at_end_of_input_witness :
  (exists a' w',
     main_turn alloc_params quiet_world = Ok (a', Running, w') /\ w_cin w' = [] /\
     w_cout w'
     = (EmptyString +:+ PROMPT)
       +:+ ("Parameter 0 exceeds maximum allowed characters: 100." +:+ endl))
  /\ forall turns, main turns quiet_world = Timeout.
Proof. exact (main_spins_at_end_of_input quiet_world eq_refl). Defined.

(** A turn of [main] on a line that [parse] accepts. *)
Lemma main_turn_dispatch a w r :
  parse a (cout PROMPT w) = Ok r -> p_len r <> (-1)%Z ->
  main_turn a w
  = Ok (p_a r, fst (dispatch (p_a r) (p_len r) (p_world r)),
        snd (dispatch (p_a r) (p_len r) (p_world r))).
Proof.
  intros Hr Hlen. unfold main_turn. rewrite Hr. cbn [rbind].
  rewrite decide_False by done. by destruct (dispatch _ _ _).
Qed.

Lemma cmdFunctions_None name :
  name <> "help" -> name <> "quit" -> name <> "copy" -> name <> "list" ->
  name <> "run" -> cmdFunctions !! name = None.
Proof.
  intros. unfold cmdFunctions.
  by rewrite !lookup_insert_ne, lookup_empty by done.
Qed.

(** What [parse] leaves for the dispatcher on an accepted line: the
    command name lowercased in slot 0. *)
Lemma parse_command_name a w t args l rest :
  wf_params a -> spaced (t :: args) l -> Forall token (t :: args) ->
  Forall short (take MAX_PARAMS (t :: args)) -> Forall (fun c => c <> NUL) t ->
  exists r, parse a (with_line l rest w) = Ok r /\
    p_len r = Z.of_nat (length (t :: args) `min` MAX_PARAMS) /\
    param (p_a r) 0 = string_of_list_ascii (map tolower t) /\
    p_world r = set_cin rest w.
Proof.
  intros Ha Hsp Hts Hsh Hnul.
  destruct (parse_accepts a w (t :: args) l rest Ha Hsp Hts Hsh) as (a0 & Ha0 & ->).
  eexists; split; [done|]. cbn [p_a p_len p_world]. split; [done|]. split; [|done].
  apply (stored_param _ 0 (norm 0 t)); [|by apply norm_not_NUL].
  apply (stored_put_tokens _ a0 0 0 t); [done| |done|].
  - rewrite length_take. lia.
  - by rewrite lookup_take_lt by klia.
Qed.

(** X8. A line of spaces only (the empty line included) is dispatched with
    an empty command name: [main] prints the unrecognized-command message
    with the empty name between the quotes and the hint, calls no handler,
    and goes on. *)
Theorem main_blank_line a w n rest :
  wf_params a ->
  exists a',
    main_turn a (with_line (replicate n SPACE) rest w)
    = Ok (a', Running, unrecognized EmptyString (set_cin rest (cout PROMPT w))).
Proof.
  intros Ha.
  destruct (parse_accepts_cleared a (cout PROMPT w) [] (replicate n SPACE) rest Ha
              (spaced_nil n)) as (a0 & Ha0 & Harg & Hp); [constructor|constructor|].
  rewrite take_nil in Hp. cbn [put_tokens] in Hp.
  change (with_line (replicate n SPACE) rest (cout PROMPT w))
    with (cout PROMPT (with_line (replicate n SPACE) rest w)) in Hp.
  rewrite (main_turn_dispatch _ _ _ Hp) by done. cbn [p_a p_len p_world].
  exists a0. unfold dispatch.
  assert (param a0 0 = EmptyString) as ->.
  { rewrite param_arg, Harg by klia. apply cstr_cleared_row. }
  done.
Qed.

Lemma main_blank_line_witness :
  exists a',
    main_turn (sample_params ["copy"; "a.txt"; "b.txt"])
              (with_line (replicate 2 SPACE) (tok "quit") quiet_world)
    = Ok (a', Running,
          unrecognized EmptyString (set_cin (tok "quit") (cout PROMPT quiet_world))).
Proof.
  apply (main_blank_line (sample_params ["copy"; "a.txt"; "b.txt"])).
  apply put_tokens_wf; [exact wf_alloc_params|vm_compute; lia|compute_done].
Defined.

(** X9. For a line whose first [MAX_PARAMS] tokens fit in
    [MAX_PARAM_LENGTH] characters and whose first token holds no NUL: if
    that token, lowercased, is none of help, quit, copy, list and run, the
    line is answered by the unrecognized-command message, which quotes the
    name as lowercased (not as typed) and is followed by the hint; no
    handler runs, so no system call is made and the file system is as
    before. *)
Theorem main_unknown_command a w t args l rest :
  wf_params a -> spaced (t :: args) l -> Forall token (t :: args) ->
  Forall short (take MAX_PARAMS (t :: args)) -> Forall (fun c => c <> NUL) t ->
  string_of_list_ascii (map tolower t) ∉ ["help"; "quit"; "copy"; "list"; "run"] ->
  exists a',
    main_turn a (with_line l rest w)
    = Ok (a', Running,
          unrecognized (string_of_list_ascii (map tolower t))
            (set_cin rest (cout PROMPT w))).
Proof.
  intros Ha Hsp Hts Hsh Hnul Hname.
  destruct (parse_command_name a (cout PROMPT w) t args l rest)
    as (r & Hp & Hlen & Hcmd & Hw); try done.
  change (with_line l rest (cout PROMPT w))
    with (cout PROMPT (with_line l rest w)) in Hp.
  rewrite (main_turn_dispatch _ _ _ Hp) by lia.
  exists (p_a r). unfold dispatch. rewrite Hcmd, Hw.
  rewrite cmdFunctions_None; [done|..];
    intros Heq; apply Hname; rewrite Heq; set_solver.
Qed.

Lemma main_unknown_command_witness :
  exists a',
    main_turn alloc_params (with_line (tok "LS" ++ SPACE :: tok "-l") [] quiet_world)
    = Ok (a', Running, unrecognized "ls" (set_cin [] (cout PROMPT quiet_world))).
Proof.
  refine (main_unknown_command alloc_params quiet_world (tok "LS") [tok "-l"] _ []
            wf_alloc_params (spaced_cons 0 _ _ _ (spaced_last 0 _)) _ _ _ _);
    compute_done.
Defined.

(** X10. A line whose first token is quit in any mix of upper and lower
    case, and whose first [MAX_PARAMS] tokens fit in [MAX_PARAM_LENGTH]
    characters, ends the program with the success status after the
    farewell message, however many parameters follow the command. *)
Theorem main_quit turns a w t args l rest :
  wf_params a -> spaced (t :: args) l -> Forall token (t :: args) ->
  Forall short (take MAX_PARAMS (t :: args)) -> map tolower t = tok "quit" ->
  main_loop (S turns) a (with_line l rest w)
  = Ok (Exited 0,
        cout ("Thanks for choosing smash!" +:+ endl) (set_cin rest (cout PROMPT w))).
Proof.
  intros Ha Hsp Hts Hsh Hq.
  assert (Forall (fun c => c <> NUL) t) as Hnul.
  { apply Forall_forall. intros c Hc Hc0. subst c.
    assert (tolower NUL ∈ tok "quit") as Hin
      by (rewrite <- Hq; by apply list_elem_of_fmap_2).
    repeat (apply elem_of_cons in Hin as [Hin|Hin]; [done|]).
    by apply elem_of_nil in Hin. }
  destruct (parse_command_name a (cout PROMPT w) t args l rest)
    as (r & Hp & Hlen & Hcmd & Hw); try done.
  change (with_line l rest (cout PROMPT w))
    with (cout PROMPT (with_line l rest w)) in Hp.
  cbn [main_loop]. rewrite (main_turn_dispatch _ _ _ Hp) by lia. cbn [rbind].
  unfold dispatch. rewrite Hcmd, Hq, Hw. done.
Qed.

Lemma main_quit_witness :
  main_loop 1 alloc_params
    (with_line (tok "QUIT" ++ SPACE :: tok "now") (tok "help") quiet_world)
  = Ok (Exited 0,
        cout ("Thanks for choosing smash!" +:+ endl)
             (set_cin (tok "help") (cout PROMPT quiet_world))).
Proof.
  refine (main_quit 0 alloc_params quiet_world (tok "QUIT") [tok "now"] _ (tok "help")
            wf_alloc_params (spaced_cons 0 _ _ _ (spaced_last 0 _)) _ _ _);
    compute_done.
Defined.

(** ** [copy]: what ends up in the file system *)

Lemma set_fs_same w : set_fs (w_fs w) w = w.
Proof. by destruct w. Qed.

Lemma copy_chars_spec out : forall data w d r wr,
  w_fs w !! out = Some (File d r wr) ->
  copy_chars data out w = set_fs (<[out := File (d ++ data) r wr]> (w_fs w)) w.
Proof.
  induction data as [|c data IH]; intros w d r wr Hout; cbn [copy_chars].
  - by rewrite app_nil_r, insert_id, set_fs_same.
  - rewrite (IH _ (d ++ [c]) r wr).
    + unfold ofstream_put. cbn [w_fs set_fs].
      by rewrite insert_alter_eq, <- app_assoc.
    + unfold ofstream_put. cbn [w_fs set_fs]. by rewrite lookup_alter_eq, Hout.
Qed.



Lemma copy_new_destination a w data wr dir entry :
  param a 1 <> param a 2 ->
  w_fs w !! param a 1 = Some (File data true wr) ->
  w_fs w !! param a 2 = None ->
  w_create_in w (param a 2) = Some (dir, entry) ->
  copy_cmd a 3 w
  = (Running,
     set_fs (<[param a 2 := File data true true]>
               (alter (add_entry entry) dir (w_fs w)))
       (log (EvOpenOut (param a 2))
          (log (EvOpenIn (param a 2)) (log (EvOpenIn (param a 1)) w)))).
Proof.
  intros Hne Hsrc Hdst Hcr. unfold copy_cmd.
  rewrite decide_False by (by intros []).
  rewrite decide_False by (by rewrite strcmp_params).
  unfold createInStream, ifstream_open. rewrite Hsrc. cbn [negb].
  unfold validateOutFile, ifstream_open. cbn [w_fs log]. rewrite Hdst. cbn [negb].
  unfold createOutStream, ofstream_open. cbn [w_fs w_create_in log].
  rewrite Hdst, Hcr. cbn [negb].
  rewrite (copy_chars_spec _ _ _ [] true true)
    by (cbn [w_fs set_fs]; apply lookup_insert_eq).
  cbn [w_fs set_fs app default]. by rewrite insert_insert_eq.
Qed.

(** X13. [copy] of a readable file to a name that does not exist asks
    nothing and reads nothing from the input. When a file of that name
    can be created, the destination then holds exactly the bytes of the
    source, its directory has the new entry, every other path is as
    before and nothing is printed. When it cannot (its directory is
    missing, say), the two lines of the cannot-create message are
    printed and the file system is as before. *)
Theorem copy_creates a w data wr :
  param a 1 <> param a 2 ->
  w_fs w !! param a 1 = Some (File data true wr) ->
  w_fs w !! param a 2 = None ->
  exists w', copy_cmd a 3 w = (Running, w') /\
    w_cin w' = w_cin w /\
    w_trace w'
    = w_trace w ++ [EvOpenIn (param a 1); EvOpenIn (param a 2); EvOpenOut (param a 2)] /\
    match w_create_in w (param a 2) with
    | Some (dir, entry) =>
        w_fs w' = <[param a 2 := File data true true]>
                    (alter (add_entry entry) dir (w_fs w)) /\
        w_cout w' = w_cout w
    | None =>
        w_fs w' = w_fs w /\
        w_cout w'
        = (w_cout w
           +:+ ("Unknown error creating output file" +:+ quote +:+ param a 2
                +:+ quote +:+ "." +:+ endl))
          +:+ ("Cannot continue requested operation." +:+ endl)
    end.
Proof.
  intros Hne Hsrc Hdst.
  destruct (w_create_in w (param a 2)) as [[dir entry]|] eqn:Hcr.
  - rewrite (copy_new_destination a w data wr dir entry) by done.
    eexists; split; [done|]. cbn [w_fs w_cout w_cin w_trace set_fs log].
    by rewrite <- !app_assoc.
  - unfold copy_cmd.
    rewrite decide_False by (by intros []).
    rewrite decide_False by (by rewrite strcmp_params).
    unfold createInStream, ifstream_open. rewrite Hsrc. cbn [negb].
    unfold validateOutFile, ifstream_open. cbn [w_fs log]. rewrite Hdst. cbn [negb].
    unfold createOutStream, ofstream_open. cbn [w_fs w_create_in log].
    rewrite Hdst, Hcr. cbn [negb].
    eexists; split; [done|]. cbn [cout w_fs w_cout w_cin w_trace log].
    by rewrite <- !app_assoc.
Qed.

Lemma copy_creates_witness :
  (exists w',
     copy_cmd (sample_params ["copy"; "a.txt"; "new.txt"]) 3 cwd_world = (Running, w') /\
     w_cin w' = [] /\
     w_trace w' = [] ++ [EvOpenIn "a.txt"; EvOpenIn "new.txt"; EvOpenOut "new.txt"] /\
     w_fs w' = <["new.txt" := File (tok "hello") true true]>
                 (alter (add_entry "new.txt") "./" (w_fs cwd_world)) /\
     w_cout w' = EmptyString)
  /\
  (exists w',
     copy_cmd (sample_params ["copy"; "a.txt"; "nodir/new.txt"]) 3 cwd_world
     = (Running, w') /\
     w_cin w' = [] /\
     w_trace w'
     = [] ++ [EvOpenIn "a.txt"; EvOpenIn "nodir/new.txt"; EvOpenOut "nodir/new.txt"] /\
     w_fs w' = w_fs cwd_world /\
     w_cout w'
     = (EmptyString
        +:+ ("Unknown error creating output file" +:+ quote +:+ "nodir/new.txt"
             +:+ quote +:+ "." +:+ endl))
       +:+ ("Cannot continue requested operation." +:+ endl)).
Proof.
  split.
  - pose (a := sample_params ["copy"; "a.txt"; "new.txt"]).
    assert (param a 1 <> param a 2) as H1 by (vm_compute; congruence).
    assert (w_fs cwd_world !! param a 1 = Some (File (tok "hello") true true)) as H2
      by (vm_compute; congruence).
    assert (w_fs cwd_world !! param a 2 = None) as H3 by (vm_compute; congruence).
    exact (copy_creates a cwd_world (tok "hello") true H1 H2 H3).
  - pose (a := sample_params ["copy"; "a.txt"; "nodir/new.txt"]).
    assert (param a 1 <> param a 2) as H1 by (vm_compute; congruence).
    assert (w_fs cwd_world !! param a 1 = Some (File (tok "hello") true true)) as H2
      by (vm_compute; congruence).
    assert (w_fs cwd_world !! param a 2 = None) as H3 by (vm_compute; congruence).
    exact (copy_creates a cwd_world (tok "hello") true H1 H2 H3).
Defined.

(** X15. The overwrite question is asked only when the destination opens
    for reading. An existing destination that is writable but not
    readable is overwritten without a question: nothing is printed,
    nothing is read from the input, and its contents become the bytes of
    the source. *)
Theorem copy_overwrites_unreadable a w data wr old :
  param a 1 <> param a 2 ->
  w_fs w !! param a 1 = Some (File data true wr) ->
  w_fs w !! param a 2 = Some (File old false true) ->
  exists w', copy_cmd a 3 w = (Running, w') /\
    w_fs w' = <[param a 2 := File data false true]> (w_fs w) /\
    w_cout w' = w_cout w /\ w_cin w' = w_cin w.
Proof.
  intros Hne Hsrc Hd. unfold copy_cmd.
  rewrite decide_False by (by intros []).
  rewrite decide_False by (by rewrite strcmp_params).
  unfold createInStream, ifstream_open. rewrite Hsrc. cbn [negb].
  unfold validateOutFile, ifstream_open. cbn [w_fs log]. rewrite Hd. cbn [negb].
  unfold createOutStream, ofstream_open. cbn [w_fs log]. rewrite Hd. cbn [negb].
  eexists; split; [done|].
  rewrite (copy_chars_spec _ _ _ [] false true)
    by (cbn [w_fs set_fs]; apply lookup_insert_eq).
  cbn [w_fs w_cout w_cin set_fs log app default]. by rewrite insert_insert_eq.
Qed.

Lemma copy_overwrites_unreadable_witness :
  exists w',
    copy_cmd (sample_params ["copy"; "a.txt"; "b.txt"]) 3
      (set_fs (<["b.txt" := File (tok "old") false true]> sample_fs) (sample_world "n"))
    = (Running, w') /\
    w_fs w'
    = <["b.txt" := File (tok "hello") false true]>
        (<["b.txt" := File (tok "old") false true]> sample_fs) /\
    w_cout w' = EmptyString /\ w_cin w' = tok "n".
Proof.
  pose (a := sample_params ["copy"; "a.txt"; "b.txt"]).
  pose (w := set_fs (<["b.txt" := File (tok "old") false true]> sample_fs)
               (sample_world "n")).
  assert (param a 1 <> param a 2) as H1 by (vm_compute; congruence).
  assert (w_fs w !! param a 1 = Some (File (tok "hello") true true)) as H2
    by (vm_compute; congruence).
  assert (w_fs w !! param a 2 = Some (File (tok "old") false true)) as H3
    by (vm_compute; congruence).
  exact (copy_overwrites_unreadable a w (tok "hello") true (tok "old") H1 H2 H3).
Defined.

(** ** [list], [run] and the answer to the overwrite question *)

Lemma string_app_assoc (s1 s2 s3 : string) : (s1 +:+ s2) +:+ s3 = s1 +:+ (s2 +:+ s3).
Proof.
  induction s1 as [|c s1 IH]; [done|].
  change (String c ((s1 +:+ s2) +:+ s3) = String c (s1 +:+ (s2 +:+ s3))).
  by rewrite IH.
Qed.

Lemma string_app_empty_r (s : string) : s +:+ EmptyString = s.
Proof.
  induction s as [|c s IH]; [done|].
  change (String c (s +:+ EmptyString) = String c s). by rewrite IH.
Qed.

Lemma print_entries_spec : forall entries w,
  print_entries entries w = cout (listing entries) w.
Proof.
  induction entries as [|e es IH]; intros w; cbn [print_entries listing].
  - unfold cout. rewrite string_app_empty_r. by destruct w.
  - rewrite IH. unfold cout. cbn [w_cin w_cout w_fs w_trace w_fork w_exec_ok w_create_in w_child].
    by rewrite !string_app_assoc.
Qed.

(** X16. [list] with a count of at most 2 opens the directory named by its
    parameter, or "./" when there is none, with one [opendir]; it prints
    the entries that call delivers, each followed by a newline, in their
    order, or "Unable to open the directory." when the path is not a
    directory. The file system and the input are left as they were. *)
Theorem list_prints_entries a len w :
  (len <= 2)%Z ->
  let path := if decide (len = 2%Z) then param a 1 else "./" in
  exists w', list_cmd a len w = (Running, w') /\
    w_cout w'
    = w_cout w +:+ match w_fs w !! path with
                   | Some (Dir entries) => listing entries
                   | _ => "Unable to open the directory." +:+ endl
                   end /\
    w_trace w' = w_trace w ++ [EvOpenDir path] /\
    w_fs w' = w_fs w /\ w_cin w' = w_cin w.
Proof.
  intros Hlen path. unfold list_cmd. rewrite decide_False by lia.
  assert ((if decide (len = 2%Z) then opendir (param a 1) w else opendir "./" w)
          = opendir path w) as -> by (unfold path; by case_decide).
  unfold opendir. destruct (w_fs w !! path) as [[data r wr|entries]|];
    eexists; (split; [done|]); rewrite ?print_entries_spec; done.
Qed.

Lemma list_prints_entries_witness :
  exists w',
    list_cmd (sample_params ["list"; "docs"]) 2
      (set_fs (<["docs" := Dir ["."; ".."; "notes.txt"] ]> sample_fs) (sample_world ""))
    = (Running, w') /\
    w_cout w' = EmptyString +:+ listing ["."; ".."; "notes.txt"] /\
    w_trace w' = [] ++ [EvOpenDir "docs"] /\
    w_fs w' = <["docs" := Dir ["."; ".."; "notes.txt"] ]> sample_fs /\ w_cin w' = [].
Proof.
  assert (2 <= 2)%Z as H by lia.
  exact (list_prints_entries (sample_params ["list"; "docs"]) 2
           (set_fs (<["docs" := Dir ["."; ".."; "notes.txt"] ]> sample_fs)
                   (sample_world "")) H).
Defined.

Lemma skip_ws_app ws s :
  Forall (fun c => isspace c = true) ws -> skip_ws (ws ++ s) = skip_ws s.
Proof. induction 1 as [|c ws Hc _ IH]; cbn [app skip_ws]; [done|by rewrite Hc]. Qed.

Lemma read_word_app word s :
  Forall (fun c => isspace c = false) word ->
  match s with [] => True | c :: _ => isspace c = true end ->
  read_word (word ++ s) = (word, s).
Proof.
  intros Hw Hs. induction Hw as [|c word Hc _ IH]; cbn [app read_word].
  - destruct s as [|c s]; [done|]. cbn [read_word]. by rewrite Hs.
  - by rewrite Hc, IH.
Qed.

(** X18. The answer to the overwrite question is the first word on the
    input: blank lines and white space before it are skipped, what
    follows it on its line is thrown away with the newline, and the
    question is answered yes exactly when that word is y. The next read
    starts on the line after the answer. *)
Theorem validateOutFile_answer fileName w ws word tail rest :
  opens_for_reading (w_fs w) fileName = true ->
  w_cin w = ws ++ word ++ tail ++ nl :: rest ->
  Forall (fun c => isspace c = true) ws ->
  word <> [] -> Forall (fun c => isspace c = false) word ->
  match tail with [] => True | c :: _ => isspace c = true end ->
  Forall (fun c => c <> nl) tail ->
  (validateOutFile fileName w).1 = bool_decide (string_of_list_ascii word = "y")
  /\ w_cin (validateOutFile fileName w).2 = rest.
Proof.
  intros Hopen Hcin Hws Hne Hword Htail Hnl. unfold validateOutFile.
  destruct (ifstream_open_good fileName w Hopen) as (data & ->).
  unfold cin_read_string. cbn [w_cin cout log]. rewrite Hcin, skip_ws_app by done.
  assert (skip_ws (word ++ tail ++ nl :: rest) = word ++ tail ++ nl :: rest) as ->.
  { destruct Hword as [|c word Hc _]; [done|]. cbn [app skip_ws]. by rewrite Hc. }
  rewrite read_word_app; [|done|by destruct tail].
  unfold clearInput. cbn [w_cin set_cin]. rewrite ignore_line_app by done.
  destruct (decide (string_of_list_ascii word = "y")) as [Hy|Hy].
  - rewrite decide_False by (by intros []). by rewrite bool_decide_eq_true_2.
  - rewrite decide_True by done. by rewrite bool_decide_eq_false_2.
Qed.

Lemma validateOutFile_answer_witness :
  (validateOutFile "b.txt"
     (set_cin ([nl; SPACE] ++ tok "y" ++ tok " please" ++ nl :: tok "quit") (sample_world ""))).1
  = bool_decide (string_of_list_ascii (tok "y") = "y")
  /\ w_cin (validateOutFile "b.txt"
       (set_cin ([nl; SPACE] ++ tok "y" ++ tok " please" ++ nl :: tok "quit")
                (sample_world ""))).2
     = tok "quit".
Proof.
  refine (validateOutFile_answer "b.txt"
            (set_cin ([nl; SPACE] ++ tok "y" ++ tok " please" ++ nl :: tok "quit")
                     (sample_world ""))
            [nl; SPACE] (tok "y") (tok " please") (tok "quit") _ eq_refl _ _ _ _ _);
    try compute_done; vm_compute; congruence.
Defined.

(** ** From the typed line to the file system *)




